(** * ChunkPipe: a chunked double-ended buffer (methods.go)

    A shallow embedding of the operations of [methods.go] and the proofs of
    the properties stated about them.

    Modelling decisions, all visible in the definitions below.

    - The chain of chunks.  The source keeps a doubly linked list
      ([head], [tail], [prev], [next]).  The embedding keeps the chunks in a
      list, head first: [head] is the first chunk, [tail] the last one,
      [next] and [prev] are the neighbours in the list.
    - Memory.  A chunk's [data] is an unsafe pointer to a run of cells of
      type [T].  The embedding keeps, for each chunk, the cells reachable
      from that pointer as a partial map from the cell index (an integer,
      relative to the pointer) to the value the cell is known to hold.  A
      cell the program never wrote, or that no pushed slice covered, holds
      no known value and reading it has no result.  Every pushed slice is a
      block of its own, and a write through the pointer always lands: the
      chunk does not record any capacity, and neither does the model.  This
      is how things are while the cells the fast path of [Push] writes,
      past the end of the tail chunk's slice, are cells of no other chunk.
      The source does not check it; module [Shared] keeps one memory for
      all chunks and follows a run where they are.
    - Predicates.  The argument of [RangeValues] is a Go closure, which may
      answer differently from one call to the next; it is modelled by a
      function of the elements it was called on before and of the element
      it is called on.
    - Faults.  An operation returns [None] where the source panics (a
      checked slice index out of range, [unsafe.Slice] on a nil pointer or
      with a negative length) or reads a cell with no known value (among
      them every read through a nil pointer).
    - Integers.  Go's [int] is modelled by [Z]: every integer below is the
      length of a slice held in memory, a sum of such lengths, or an index
      below one of them ([stored_integers_are_counts] bounds them by the
      number of elements pushed).
    - The lock [mu] is not modelled: every operation runs under it from its
      first to its last statement, so operations do not interleave.
      Of [RangeChunk], which hands its output to a goroutine and a channel,
      the model keeps the sequence of the slices sent. *)

From Stdlib Require Import ZArith List Bool Lia Permutation.
Import ListNotations.
Open Scope Z_scope.

Set Implicit Arguments.

(** ** A small error monad for faults *)

Notation "x <- m ;; k" := (match m with Some x => k | None => None end)
  (at level 61, m at next level, right associativity).

(** Splitting a list at its last element: the tail chunk and what is
    before it. *)
Fixpoint unsnoc {A : Type} (l : list A) : option (list A * A) :=
  match l with
  | [] => None
  | x :: l' =>
      match unsnoc l' with
      | None => Some ([], x)
      | Some (i, y) => Some (x :: i, y)
      end
  end.

Section ChunkPipe.

Variable T : Type.
(** [var zero T]: the zero value of the element type. *)
Variable zero : T.

(** ** Memory *)

(** The cells reachable from a data pointer. *)
Definition block := Z -> option T.

(** A read of cell [k] through a data pointer ([unsafe.Add], then a
    dereference);
    [None] for a nil pointer and for a cell with no known value. *)
Definition load (p : option block) (k : Z) : option T :=
  match p with
  | Some b => b k
  | None => None
  end.

(** A write of [v] to cell [k] through a non-nil data pointer. *)
Definition store (b : block) (k : Z) (v : T) : block :=
  fun j => if j =? k then Some v else b j.

(** The cells of a slice [data], seen from [&data[0]]. *)
Definition of_slice (data : list T) : block :=
  fun k => if k <? 0 then None else nth_error data (Z.to_nat k).

(** [n] consecutive cells starting at cell [k]. *)
Fixpoint cells (b : block) (k : Z) (n : nat) : option (list T) :=
  match n with
  | O => Some []
  | S n' =>
      v <- b k ;;
      vs <- cells b (k + 1) n' ;;
      Some (v :: vs)
  end.

(** A checked Go slice, as [unsafe.Slice] makes it: its cells and its
    length. *)
Record slice := { s_mem : block; s_len : Z }.

(** [unsafe.Slice] at pointer [p] with length [n]: panics on a negative
    length and on a nil pointer with a non-zero length. *)
Definition unsafe_Slice (p : option block) (n : Z) : option slice :=
  if n <? 0 then None
  else match p with
       | Some b => Some {| s_mem := b; s_len := n |}
       | None => if n =? 0 then Some {| s_mem := fun _ => None; s_len := 0 |}
                 else None
       end.

(** [s[i]], bounds-checked. *)
Definition index (s : slice) (i : Z) : option T :=
  if (0 <=? i) && (i <? s_len s) then s_mem s i else None.

(** The elements of [s[from:]], bounds-checked. *)
Definition from_index (s : slice) (from : Z) : option (list T) :=
  if (0 <=? from) && (from <=? s_len s)
  then cells (s_mem s) from (Z.to_nat (s_len s - from))
  else None.

(** [len(data)] *)
Definition len (data : list T) : Z := Z.of_nat (length data).

(** ** Data model *)

(** Modelled from the spec: the declaration of the struct is not in
    methods.go.  The fields are the ones the methods use; [prev] and [next]
    are the neighbours in [chain]. *)
Record Chunk := {
  data : option block;   (* unsafe.Pointer; None is nil *)
  size : Z;
  offset : Z
}.

(** Modelled from the spec: the declaration of the struct is not in
    methods.go.  [blockAddr] points to the chunk of the node; the node
    keeps the chunk as it was when the node was made. *)
Inductive TreeNode :=
| Nil
| Node (sum validSize : Z) (blockAddr : Chunk) (left right : TreeNode).

(** Modelled from the spec: the declaration of the struct is not in
    methods.go.  The fields are the ones the methods use: [head], [tail]
    (here the list [chain]), [totalSize], [validSize] and [root]. *)
Record ChunkPipe := {
  chain : list Chunk;
  totalSize : Z;
  validSize : Z;
  root : TreeNode
}.

(** Modelled from the spec: the constructor is not in methods.go.  The
    empty buffer has no chunk, both counters at zero and no tree. *)
Definition NewChunkPipe : ChunkPipe :=
  {| chain := []; totalSize := 0; validSize := 0; root := Nil |}.

(** ** Push *)

(** The write loop of the fast path:
    [for i := range data], storing [data[i]] at cell [k + i]. *)
Fixpoint write_loop (b : block) (k : Z) (vs : list T) : block :=
  match vs with
  | [] => b
  | v :: rest => write_loop (store b k v) (k + 1) rest
  end.

(** The fast path on the tail chunk [t]: write at [t.size], grow [t.size]. *)
Definition append_in_place (t : Chunk) (vs : list T) : option Chunk :=
  b <- data t ;;
  Some {| data := Some (write_loop b (size t) vs);
          size := size t + len vs;
          offset := offset t |}.

(** The new chunk of the bulk path. *)
Definition new_block (vs : list T) : Chunk :=
  {| data := Some (of_slice vs); size := len vs; offset := 0 |}.

(** An empty input changes nothing.  An input of at most 8 elements goes
    into the tail chunk when there is one with [size - offset < 16]; any
    other input becomes a new tail chunk over the caller's block. *)
Definition Push (data : list T) (cl : ChunkPipe) : option ChunkPipe :=
  if len data =? 0 then Some cl
  else
    let bulk :=
      {| chain := chain cl ++ [new_block data];
         totalSize := totalSize cl + len data;
         validSize := validSize cl + len data;
         root := root cl |} in
    match unsnoc (chain cl) with
    | Some (before, t) =>
        if (len data <=? 8) && (size t - offset t <? 16) then
          t' <- append_in_place t data ;;
          Some {| chain := before ++ [t'];
                  totalSize := totalSize cl + len data;
                  validSize := validSize cl + len data;
                  root := root cl |}
        else Some bulk
    | None => Some bulk
    end.

(** ** insertBlockToTree *)

(** The descent loop, entered with [current] not nil. *)
Fixpoint insert_loop (newNode : TreeNode) (bsize bvalid : Z)
    (current : TreeNode) : TreeNode :=
  match current with
  | Nil => newNode
  | Node s v a l r =>
      match l with
      | Nil => Node (s + bsize) (v + bvalid) a newNode r
      | Node ls _ _ _ _ =>
          match r with
          | Nil => Node (s + bsize) (v + bvalid) a l newNode
          | Node rs _ _ _ _ =>
              if ls <=? rs
              then Node (s + bsize) (v + bvalid) a
                        (insert_loop newNode bsize bvalid l) r
              else Node (s + bsize) (v + bvalid) a
                        l (insert_loop newNode bsize bvalid r)
          end
      end
  end.

Definition insertBlockToTree (block : option Chunk) (cl : ChunkPipe)
    : ChunkPipe :=
  match block with
  | None => cl
  | Some b =>
      let newNode := Node (size b) (size b - offset b) b Nil Nil in
      {| chain := chain cl;
         totalSize := totalSize cl;
         validSize := validSize cl;
         root := match root cl with
                 | Nil => newNode
                 | Node _ _ _ _ _ =>
                     insert_loop newNode (size b) (size b - offset b) (root cl)
                 end |}
  end.

(** ** Get *)

Fixpoint get_loop (current : list Chunk) (remainingIndex : Z)
    : option (T * bool) :=
  match current with
  | [] => Some (zero, false)
  | c :: next =>
      let validCount := size c - offset c in
      if remainingIndex <? validCount then
        v <- load (data c) (offset c + remainingIndex) ;;
        Some (v, true)
      else get_loop next (remainingIndex - validCount)
  end.

Definition Get (index : Z) (cl : ChunkPipe) : option (T * bool) :=
  if (index <? 0) || (validSize cl <=? index) then Some (zero, false)
  else get_loop (chain cl) index.

(** ** PopChunkFront, PopChunkEnd *)

Definition set_chain (cl : ChunkPipe) (cs : list Chunk) : ChunkPipe :=
  {| chain := cs; totalSize := totalSize cl; validSize := validSize cl;
     root := root cl |}.

(** [newData := make([]T, validCount)], then, for a non-nil [data],
    [copy(newData, src[block.offset:])] with [src] the checked slice of
    length [block.size]. *)
Definition copy_valid (b : Chunk) (validCount : Z) : option (list T) :=
  match data b with
  | None => Some (repeat zero (Z.to_nat validCount))
  | Some _ =>
      src <- unsafe_Slice (data b) (size b) ;;
      from_index src (offset b)
  end.

(** The counters after a chunk of [validCount] elements has left. *)
Definition drop_counts (cl : ChunkPipe) (cs : list Chunk) (validCount : Z)
    : ChunkPipe :=
  {| chain := cs;
     totalSize := totalSize cl - validCount;
     validSize := validSize cl - validCount;
     root := root cl |}.

Definition PopChunkFront (cl : ChunkPipe)
    : option (ChunkPipe * (list T * bool)) :=
  match chain cl with
  | [] => Some (cl, ([], false))
  | b :: next =>
      if validSize cl =? 0 then Some (cl, ([], false))
      else
        let validCount := size b - offset b in
        if validCount <=? 0 then Some (set_chain cl next, ([], false))
        else
          newData <- copy_valid b validCount ;;
          Some (drop_counts cl next validCount, (newData, true))
  end.

Definition PopChunkEnd (cl : ChunkPipe)
    : option (ChunkPipe * (list T * bool)) :=
  match unsnoc (chain cl) with
  | None => Some (cl, ([], false))
  | Some (prev, b) =>
      if validSize cl =? 0 then Some (cl, ([], false))
      else
        let validCount := size b - offset b in
        if validCount <=? 0 then Some (set_chain cl prev, ([], false))
        else
          newData <- copy_valid b validCount ;;
          Some (drop_counts cl prev validCount, (newData, true))
  end.

(** ** PopFront, PopEnd *)

Definition PopFront (cl : ChunkPipe) : option (ChunkPipe * (T * bool)) :=
  match chain cl with
  | [] => Some (cl, (zero, false))
  | b :: next =>
      if validSize cl =? 0 then Some (cl, (zero, false))
      else if size b <=? offset b then
        Some (set_chain cl next, (zero, false))
      else
        value <- load (data b) (offset b) ;;
        let b' := {| data := data b; size := size b;
                     offset := offset b + 1 |} in
        let cl' := {| chain := b' :: next;
                      totalSize := totalSize cl - 1;
                      validSize := validSize cl - 1;
                      root := root cl |} in
        if offset b' <? size b' - 8 then Some (cl', (value, true))
        else if size b' <=? offset b' then
          Some (set_chain cl' next, (value, true))
        else Some (cl', (value, true))
  end.

Definition PopEnd (cl : ChunkPipe) : option (ChunkPipe * (T * bool)) :=
  match unsnoc (chain cl) with
  | None => Some (cl, (zero, false))
  | Some (prev, b) =>
      if validSize cl =? 0 then Some (cl, (zero, false))
      else
        value <- load (data b) (size b - 1) ;;
        let b' := {| data := data b; size := size b - 1;
                     offset := offset b |} in
        let cl' := {| chain := prev ++ [b'];
                      totalSize := totalSize cl - 1;
                      validSize := validSize cl - 1;
                      root := root cl |} in
        if size b' <=? offset b' then Some (set_chain cl' prev, (value, true))
        else Some (cl', (value, true))
  end.

(** ** Range *)

(** The slice [unsafe.Slice(basePtr, size - offset)] of the loop body, with
    [basePtr] at cell [offset]: a nil [data] has no cells to read. *)
Definition valid_window (c : Chunk) : option (list T) :=
  match data c with
  | None => None
  | Some b => cells b (offset c) (Z.to_nat (size c - offset c))
  end.

Fixpoint range_loop (current : list Chunk) (result : list T)
    : option (list T) :=
  match current with
  | [] => Some result
  | c :: next =>
      if offset c <? size c then
        w <- valid_window c ;;
        range_loop next (result ++ w)
      else range_loop next result
  end.

Definition Range (cl : ChunkPipe) : option (list T) :=
  if validSize cl =? 0 then Some []
  else range_loop (chain cl) [].

(** ** RangeValues *)

(** The traversal calls [fn] as it goes.  A computation carries the list
    of the elements [fn] has been called on so far, oldest first, and
    fails where the source panics. *)
Definition M (A : Type) := list T -> option (A * list T).

Definition ret {A : Type} (a : A) : M A := fun log => Some (a, log).

Definition bind {A B : Type} (m : M A) (k : A -> M B) : M B :=
  fun log =>
    match m log with
    | Some (a, log') => k a log'
    | None => None
    end.

(** The predicate [fn func(T) bool] is a Go closure: what it answers may
    depend on the calls made to it before, as with a closure that counts
    its calls.  A closure is a function of the elements it has been called
    on so far in the traversal, oldest first, and of the element it is
    called on now. *)
Definition closure := list T -> T -> bool.

(** The closure of a predicate that looks at the element only. *)
Definition stateless (p : T -> bool) : closure := fun _ v => p v.

(** [!fn(slice[i])] *)
Definition not_fn (fn : closure) (s : slice) (i : Z) : M bool :=
  fun log =>
    v <- index s i ;;
    Some (negb (fn log v), log ++ [v]).

(** [a || b], which evaluates [b] only when [a] is false. *)
Definition orelse (a b : M bool) : M bool :=
  bind a (fun x => if x then ret true else b).

(** [_ = slice[i]] *)
Definition touch (s : slice) (i : Z) : M unit :=
  fun log =>
    _ <- index s i ;;
    Some (tt, log).

(** How a loop ends: it falls through with its counter, or the function
    returns from inside it. *)
Inductive flow := Continue (i : Z) | Return.

Definition batchSize : Z := 16.

(** The unrolled condition of the batch loop. *)
Definition batch_stops (fn : closure) (s : slice) (i : Z) : M bool :=
  orelse (not_fn fn s i) (orelse (not_fn fn s (i + 1))
  (orelse (not_fn fn s (i + 2)) (orelse (not_fn fn s (i + 3))
  (orelse (not_fn fn s (i + 4)) (orelse (not_fn fn s (i + 5))
  (orelse (not_fn fn s (i + 6)) (orelse (not_fn fn s (i + 7))
  (orelse (not_fn fn s (i + 8)) (orelse (not_fn fn s (i + 9))
  (orelse (not_fn fn s (i + 10)) (orelse (not_fn fn s (i + 11))
  (orelse (not_fn fn s (i + 12)) (orelse (not_fn fn s (i + 13))
  (orelse (not_fn fn s (i + 14)) (not_fn fn s (i + 15)))))))))))))))).

(** [for ; i+batchSize <= current.size; i += batchSize].  The loop runs at
    most [fuel] times; [RangeValues] gives it more than it can use. *)
Fixpoint batch_loop (fuel : nat) (fn : closure) (s : slice) (csize i : Z)
    : M flow :=
  match fuel with
  | O => fun _ => None
  | S fuel' =>
      if i + batchSize <=? csize then
        bind (if i + batchSize * 2 <=? csize then touch s (i + batchSize)
              else ret tt)
          (fun _ =>
             bind (batch_stops fn s i)
               (fun stop =>
                  if stop then ret Return
                  else batch_loop fuel' fn s csize (i + batchSize)))
      else ret (Continue i)
  end.

(** [for ; i < current.size; i++] *)
Fixpoint rest_loop (fuel : nat) (fn : closure) (s : slice) (csize i : Z)
    : M flow :=
  match fuel with
  | O => fun _ => None
  | S fuel' =>
      if i <? csize then
        bind (not_fn fn s i)
          (fun stop =>
             if stop then ret Return
             else rest_loop fuel' fn s csize (i + 1))
      else ret (Continue i)
  end.

(** The body of the outer loop for one chunk with [size > offset]. *)
Definition range_chunk (fn : closure) (c : Chunk) : M flow :=
  fun log =>
    s <- unsafe_Slice (data c) (size c) ;;
    let fuel := S (Z.to_nat (size c - offset c)) in
    bind (batch_loop fuel fn s (size c) (offset c))
      (fun f =>
         match f with
         | Return => ret Return
         | Continue i => rest_loop fuel fn s (size c) i
         end) log.

Fixpoint values_loop (fn : closure) (current : list Chunk) : M unit :=
  match current with
  | [] => ret tt
  | c :: next =>
      if offset c <? size c then
        bind (range_chunk fn c)
          (fun f =>
             match f with
             | Return => ret tt
             | Continue _ => values_loop fn next
             end)
      else values_loop fn next
  end.

(** [RangeValues(fn)] returns nothing; what can be observed of it is the
    sequence of the calls of [fn], which is the result here. *)
Definition RangeValues (fn : closure) (cl : ChunkPipe) : option (list T) :=
  match values_loop fn (chain cl) [] with
  | Some (_, log) => Some log
  | None => None
  end.

(** ** RangeChunk *)

(** [RangeChunk] starts a goroutine that walks the chain under the read
    lock and sends slices on a channel, which it closes at the end.  The
    goroutine and the channel are not modelled: the result here is the
    sequence of the slices sent before the close, each with the elements
    it holds when it is sent.  [buffer] is made with capacity 1024 and is
    appended to only while it fits, so [cap(buffer)] is 1024 throughout. *)
Definition buffer_cap : Z := 1024.

(** [ch <- buffer] when [len(buffer) > 0]. *)
Definition flush (buffer : list T) (sent : list (list T))
    : list (list T) :=
  if 0 <? len buffer then sent ++ [buffer] else sent.

Fixpoint chunk_loop (current : list Chunk) (buffer : list T)
    (sent : list (list T)) : option (list (list T)) :=
  match current with
  | [] => Some (flush buffer sent)
  | c :: next =>
      if offset c <? size c then
        data <- unsafe_Slice (data c) (size c) ;;
        validData <- from_index data (offset c) ;;
        if len buffer + len validData <=? buffer_cap then
          chunk_loop next (buffer ++ validData) sent
        else
          chunk_loop next [] (flush buffer sent ++ [validData])
      else chunk_loop next buffer sent
  end.

Definition RangeChunk (cl : ChunkPipe) : option (list (list T)) :=
  chunk_loop (chain cl) [] [].

(** ** Runs of operations *)

Inductive op :=
| OpPush (data : list T)
| OpPopFront
| OpPopEnd
| OpPopChunkFront
| OpPopChunkEnd.

(** What an operation returned. *)
Inductive result :=
| RPush
| RValue (v : T) (ok : bool)
| RChunk (vs : list T) (ok : bool).

Definition exec (o : op) (cl : ChunkPipe) : option (ChunkPipe * result) :=
  match o with
  | OpPush d => cl' <- Push d cl ;; Some (cl', RPush)
  | OpPopFront =>
      r <- PopFront cl ;; Some (fst r, RValue (fst (snd r)) (snd (snd r)))
  | OpPopEnd =>
      r <- PopEnd cl ;; Some (fst r, RValue (fst (snd r)) (snd (snd r)))
  | OpPopChunkFront =>
      r <- PopChunkFront cl ;;
      Some (fst r, RChunk (fst (snd r)) (snd (snd r)))
  | OpPopChunkEnd =>
      r <- PopChunkEnd cl ;;
      Some (fst r, RChunk (fst (snd r)) (snd (snd r)))
  end.

(** The operations of [ops] one after the other, with what each returned. *)
Fixpoint run (ops : list op) (cl : ChunkPipe)
    : option (ChunkPipe * list result) :=
  match ops with
  | [] => Some (cl, [])
  | o :: rest =>
      r <- exec o cl ;;
      r' <- run rest (fst r) ;;
      Some (fst r', snd r :: snd r')
  end.

(** A state is reachable when a run from the empty buffer ends in it. *)
Definition reachable (cl : ChunkPipe) : Prop :=
  exists ops rs, run ops NewChunkPipe = Some (cl, rs).

(** ** What the proofs talk about *)

(** The sum of [size] and the sum of the valid counts over a chain. *)
Definition sum_size (cs : list Chunk) : Z :=
  fold_right (fun c acc => size c + acc) 0 cs.

Definition sum_valid (cs : list Chunk) : Z :=
  fold_right (fun c acc => (size c - offset c) + acc) 0 cs.

(** The chunk [c] has a non-empty valid window inside its block, and the
    window holds the elements [w]. *)
Definition chunk_rep (c : Chunk) (w : list T) : Prop :=
  0 <= offset c /\ offset c < size c /\ valid_window c = Some w.

(** The buffer [cl] holds the windows [ws], one per chunk from head to
    tail, and its counters count their elements. *)
Definition Rep (cl : ChunkPipe) (ws : list (list T)) : Prop :=
  Forall2 chunk_rep (chain cl) ws /\
  validSize cl = len (concat ws) /\
  totalSize cl = validSize cl.

(** The elements [fn] is called on when it is tried on [l] from the left
    until it answers false, after it has been called on [log]. *)
Fixpoint visited (fn : closure) (log l : list T) : list T :=
  match l with
  | [] => []
  | v :: l' => if fn log v then v :: visited fn (log ++ [v]) l' else [v]
  end.

(** [fn] answers true on every element of [l], tried from the left after
    it has been called on [log]. *)
Fixpoint passes (fn : closure) (log l : list T) : bool :=
  match l with
  | [] => true
  | v :: l' => fn log v && passes fn (log ++ [v]) l'
  end.

(** The number of elements a run pushed, and the number its pops took
    out. *)
Definition pushed (ops : list op) : Z :=
  fold_right (fun o acc =>
                match o with OpPush d => len d + acc | _ => acc end) 0 ops.

Definition popped (rs : list result) : Z :=
  fold_right (fun r acc =>
                match r with
                | RValue _ true => 1 + acc
                | RChunk vs true => len vs + acc
                | _ => acc
                end) 0 rs.

(** The number of nodes of the index tree. *)
Fixpoint nodes (t : TreeNode) : nat :=
  match t with
  | Nil => O
  | Node _ _ _ l r => S (nodes l + nodes r)
  end.

(** The totals a node of the index tree records, zero for no node. *)
Definition tree_sum (t : TreeNode) : Z :=
  match t with
  | Nil => 0
  | Node s _ _ _ _ => s
  end.

Definition tree_valid (t : TreeNode) : Z :=
  match t with
  | Nil => 0
  | Node _ v _ _ _ => v
  end.

(** Every node records the totals of its subtree: its own chunk plus
    what its children record. *)
Fixpoint tree_ok (t : TreeNode) : Prop :=
  match t with
  | Nil => True
  | Node s v a l r =>
      s = size a + tree_sum l + tree_sum r /\
      v = (size a - offset a) + tree_valid l + tree_valid r /\
      tree_ok l /\ tree_ok r
  end.

(** The chunks the nodes of a tree refer to. *)
Fixpoint tree_blocks (t : TreeNode) : list Chunk :=
  match t with
  | Nil => []
  | Node _ _ a l r => a :: tree_blocks l ++ tree_blocks r
  end.

(** [insertBlockToTree] on each chunk of [bs] in turn. *)
Definition insert_all (bs : list Chunk) (cl : ChunkPipe) : ChunkPipe :=
  fold_left (fun acc b => insertBlockToTree (Some b) acc) bs cl.

End ChunkPipe.

Arguments Nil {T}.
Arguments NewChunkPipe {T}.
Arguments OpPopFront {T}.
Arguments OpPopEnd {T}.
Arguments OpPopChunkFront {T}.
Arguments OpPopChunkEnd {T}.
Arguments RPush {T}.


(** ** One memory for all chunks *)

(** Above, a chunk comes with the cells reachable from its own pointer,
    and the cells of one chunk are not the cells of another.  That is how
    things are as long as the cells the fast path of [Push] writes, past
    the end of the tail chunk's slice, belong to no other chunk.  [Push]
    does not check it (a chunk records no capacity), and two slices cut
    from one array are next to each other.  This module follows such a run:
    it keeps one memory for all chunks, with [data] an address in it, and
    has [Push], [PopFront] and [Get] work on addresses as the source
    does. *)
Module Shared.

Section Addresses.

Variable T : Type.
Variable zero : T.

(** The memory: the value each cell is known to hold, by address (counted
    in cells). *)
Definition memory := Z -> option T.

(** A Go slice [data []T] as [Push] uses it: the address of [data[0]] and
    [len(data)]. *)
Record Slice := { addr : Z; len : Z }.

(** [data] is the address kept from [&data[0]]. *)
Record Chunk := { data : Z; size : Z; offset : Z }.

(** The fields the three methods use; they never touch [root]. *)
Record ChunkPipe := {
  chain : list Chunk;
  totalSize : Z;
  validSize : Z
}.

Definition NewChunkPipe : ChunkPipe :=
  {| chain := []; totalSize := 0; validSize := 0 |}.

Definition store (m : memory) (k : Z) (v : T) : memory :=
  fun j => if j =? k then Some v else m j.

(** The write loop of the fast path: at each turn [data[i]] is read from
    cell [src + i] and stored at cell [dst + i]. *)
Fixpoint write_loop (m : memory) (dst src : Z) (n : nat) : option memory :=
  match n with
  | O => Some m
  | S n' =>
      v <- m src ;;
      write_loop (store m dst v) (dst + 1) (src + 1) n'
  end.

Definition Push (d : Slice) (st : memory * ChunkPipe)
    : option (memory * ChunkPipe) :=
  let m := fst st in
  let cl := snd st in
  if len d =? 0 then Some st
  else
    let bulk :=
      {| chain := chain cl ++
                  [ {| data := addr d; size := len d; offset := 0 |} ];
         totalSize := totalSize cl + len d;
         validSize := validSize cl + len d |} in
    match unsnoc (chain cl) with
    | Some (before, t) =>
        if (len d <=? 8) && (size t - offset t <? 16) then
          m' <- write_loop m (data t + size t) (addr d) (Z.to_nat (len d)) ;;
          Some (m', {| chain := before ++
                                [ {| data := data t;
                                     size := size t + len d;
                                     offset := offset t |} ];
                       totalSize := totalSize cl + len d;
                       validSize := validSize cl + len d |})
        else Some (m, bulk)
    | None => Some (m, bulk)
    end.

Definition PopFront (st : memory * ChunkPipe)
    : option (memory * ChunkPipe * (T * bool)) :=
  let m := fst st in
  let cl := snd st in
  match chain cl with
  | [] => Some (st, (zero, false))
  | b :: next =>
      if validSize cl =? 0 then Some (st, (zero, false))
      else if size b <=? offset b then
        Some ((m, {| chain := next; totalSize := totalSize cl;
                     validSize := validSize cl |}), (zero, false))
      else
        value <- m (data b + offset b) ;;
        let b' := {| data := data b; size := size b;
                     offset := offset b + 1 |} in
        let kept := {| chain := b' :: next;
                       totalSize := totalSize cl - 1;
                       validSize := validSize cl - 1 |} in
        let unlinked := {| chain := next;
                           totalSize := totalSize cl - 1;
                           validSize := validSize cl - 1 |} in
        if offset b' <? size b' - 8 then Some ((m, kept), (value, true))
        else if size b' <=? offset b' then
          Some ((m, unlinked), (value, true))
        else Some ((m, kept), (value, true))
  end.

Fixpoint get_loop (m : memory) (current : list Chunk) (remainingIndex : Z)
    : option (T * bool) :=
  match current with
  | [] => Some (zero, false)
  | c :: next =>
      let validCount := size c - offset c in
      if remainingIndex <? validCount then
        v <- m (data c + offset c + remainingIndex) ;;
        Some (v, true)
      else get_loop m next (remainingIndex - validCount)
  end.

Definition Get (index : Z) (st : memory * ChunkPipe) : option (T * bool) :=
  if (index <? 0) || (validSize (snd st) <=? index) then Some (zero, false)
  else get_loop (fst st) (chain (snd st)) index.

End Addresses.

End Shared.

(** ** Sample runs, on integers *)

Definition state_after (ops : list (op Z)) : ChunkPipe Z :=
  match run 0 ops NewChunkPipe with
  | Some (cl, _) => cl
  | None => NewChunkPipe
  end.

(** Two small pushes that share a chunk, a bulk push of 21 elements, and
    one pop from the front. *)
Definition sample_ops : list (op Z) :=
  [OpPush [1; 2; 3]; OpPush [4; 5];
   OpPush [6; 7; 8; 9; 10; 11; 12; 13; 14; 15; 16; 17; 18; 19; 20; 21; 22;
           23; 24; 25; 26];
   OpPopFront].

Definition sample : ChunkPipe Z := state_after sample_ops.

(** A push of two elements and one pop from the front. *)
Definition popped_once : ChunkPipe Z :=
  state_after [OpPush [1; 2]; OpPopFront].

(** One push of three elements. *)
Definition pushed_once : ChunkPipe Z := state_after [OpPush [1; 2; 3]].

(** One bulk push of nine elements. *)
Definition bulk_once : ChunkPipe Z :=
  state_after [OpPush [1; 2; 3; 4; 5; 6; 7; 8; 9]].

(** The logical sequence of [sample]. *)
Definition sample_elements : list Z :=
  [2; 3; 4; 5; 6; 7; 8; 9; 10; 11; 12; 13; 14; 15; 16; 17; 18; 19; 20; 21;
   22; 23; 24; 25; 26].

(** Two bulk pushes. *)
Definition bulk_pushes : list (list Z) :=
  [[1; 2; 3; 4; 5; 6; 7; 8; 9]; [10; 11; 12; 13; 14; 15; 16; 17; 18; 19]].

(** One push of two elements, and the states after a pop from its end and
    after a second, small push. *)
Definition two_elements : ChunkPipe Z := state_after [OpPush [1; 2]].

Definition popped_end_once : ChunkPipe Z :=
  state_after [OpPush [1; 2]; OpPopEnd].

Definition pushed_twice : ChunkPipe Z :=
  state_after [OpPush [1; 2; 3]; OpPush [4; 5]].

(** One push of three equal elements. *)
Definition sevens : ChunkPipe Z := state_after [OpPush [7; 7; 7]].

(** A closure that counts its calls: true at each of its first [n] calls,
    false from then on, whatever the elements. *)
Definition at_most (n : nat) : closure Z :=
  fun log _ => Nat.ltb (length log) n.

(** An array [a] of twenty integers at the addresses 0 to 19, with
    [a[i] = i], and a one-element array holding -1 at the address 100. *)
Definition two_arrays : Shared.memory Z :=
  fun k =>
    if k =? 100 then Some (-1)
    else if (0 <=? k) && (k <? 20) then Some k
    else None.

(** [Push(a[10:20])], [Push(a[0:10])], [Push([]int{-1})] on a new buffer:
    three slices that have no cell in common. *)
Definition three_disjoint_pushes
    : option (Shared.memory Z * Shared.ChunkPipe) :=
  st1 <- Shared.Push {| Shared.addr := 10; Shared.len := 10 |}
           (two_arrays, Shared.NewChunkPipe) ;;
  st2 <- Shared.Push {| Shared.addr := 0; Shared.len := 10 |} st1 ;;
  Shared.Push {| Shared.addr := 100; Shared.len := 1 |} st2.

Definition after_three_pushes : Shared.memory Z * Shared.ChunkPipe :=
  match three_disjoint_pushes with
  | Some st => st
  | None => (two_arrays, Shared.NewChunkPipe)
  end.

(** A bulk push on top of [sample]. *)
Definition nine_more : list Z := [27; 28; 29; 30; 31; 32; 33; 34; 35].

Definition bulk_pushed : ChunkPipe Z :=
  state_after (sample_ops ++ [OpPush nine_more]).

(** * Proofs *)

(** ** Lists split at their last element *)

Lemma unsnoc_app (A : Type) (l : list A) (x : A) :
  unsnoc (l ++ [x]) = Some (l, x).
Proof.
  induction l as [|y l IH]; simpl; [reflexivity|].
  now rewrite IH.
Qed.

Lemma unsnoc_None (A : Type) (l : list A) : unsnoc l = None -> l = [].
Proof.
  destruct l as [|x l]; simpl; [reflexivity|].
  destruct (unsnoc l) as [[i y]|]; discriminate.
Qed.

Lemma unsnoc_Some (A : Type) (l i : list A) (x : A) :
  unsnoc l = Some (i, x) -> l = i ++ [x].
Proof.
  revert i x. induction l as [|y l IH]; simpl; intros i x H; [discriminate|].
  destruct (unsnoc l) as [[i' z]|] eqn:E.
  - inversion H; subst. simpl. f_equal. now apply IH.
  - inversion H; subst. apply unsnoc_None in E. now subst.
Qed.

Section Proofs.

Variable T : Type.
Variable zero : T.

Implicit Types (b : block T) (c : Chunk T) (cl : ChunkPipe T)
  (w d : list T) (ws : list (list T)).

(** ** Memory *)

Lemma len_app w d : len (w ++ d) = len w + len d.
Proof. unfold len. rewrite length_app. lia. Qed.

Lemma len_cons (v : T) w : len (v :: w) = 1 + len w.
Proof. unfold len. simpl length. lia. Qed.

Lemma len_nonneg w : 0 <= len w.
Proof. unfold len. lia. Qed.

Lemma len_nil_iff w : len w = 0 <-> w = [].
Proof.
  unfold len. split; intros H.
  - destruct w; [reflexivity | simpl in H; lia].
  - now subst.
Qed.

Lemma cells_length b n : forall k w, cells b k n = Some w -> length w = n.
Proof.
  induction n as [|n IH]; simpl; intros k w H.
  - now inversion H.
  - destruct (b k); [|discriminate].
    destruct (cells b (k + 1) n) eqn:E; [|discriminate].
    inversion H; subst. simpl. f_equal. eauto.
Qed.

Lemma cells_ext b b' n : forall k,
  (forall j, k <= j < k + Z.of_nat n -> b j = b' j) ->
  cells b k n = cells b' k n.
Proof.
  induction n as [|n IH]; simpl; intros k H; [reflexivity|].
  rewrite (H k) by lia.
  rewrite (IH (k + 1)) by (intros; apply H; lia).
  reflexivity.
Qed.

Lemma cells_app b n m : forall k w d,
  cells b k n = Some w ->
  cells b (k + Z.of_nat n) m = Some d ->
  cells b k (n + m) = Some (w ++ d).
Proof.
  induction n as [|n IH]; simpl; intros k w d Hw Hd.
  - inversion Hw; subst. now replace (k + 0) with k in Hd by lia.
  - destruct (b k); [|discriminate].
    destruct (cells b (k + 1) n) eqn:E; [|discriminate].
    inversion Hw; subst.
    rewrite (IH (k + 1) l d); [reflexivity | assumption |].
    now replace (k + 1 + Z.of_nat n) with (k + Z.pos (Pos.of_succ_nat n))
      by lia.
Qed.

Lemma cells_split b n m : forall k l,
  cells b k (n + m) = Some l ->
  cells b k n = Some (firstn n l) /\
  cells b (k + Z.of_nat n) m = Some (skipn n l).
Proof.
  induction n as [|n IH]; simpl; intros k l H.
  - now replace (k + 0) with k by lia.
  - destruct (b k); [|discriminate].
    destruct (cells b (k + 1) (n + m)) eqn:E; [|discriminate].
    inversion H; subst. simpl.
    destruct (IH _ _ E) as [H1 H2]. rewrite H1. split; [reflexivity|].
    now replace (k + Z.pos (Pos.of_succ_nat n)) with (k + 1 + Z.of_nat n)
      by lia.
Qed.

Lemma cells_nth b n : forall k w i,
  cells b k n = Some w -> (i < n)%nat ->
  b (k + Z.of_nat i) = nth_error w i.
Proof.
  induction n as [|n IH]; simpl; intros k w i H Hi; [lia|].
  destruct (b k) eqn:Ek; [|discriminate].
  destruct (cells b (k + 1) n) eqn:E; [|discriminate].
  inversion H; subst.
  destruct i as [|i]; simpl.
  - now replace (k + 0) with k by lia.
  - rewrite <- (IH (k + 1) l i E) by lia. f_equal. lia.
Qed.

Lemma cells_intro w : forall b k,
  (forall i, (i < length w)%nat -> b (k + Z.of_nat i) = nth_error w i) ->
  cells b k (length w) = Some w.
Proof.
  induction w as [|v w IH]; simpl; intros b k H; [reflexivity|].
  generalize (H O); simpl. replace (k + 0) with k by lia.
  intros ->; [|lia].
  rewrite IH; [reflexivity|].
  intros i Hi. generalize (H (S i)). simpl nth_error.
  intros <-; [|lia]. f_equal. lia.
Qed.

Lemma cells_of_slice d : cells (of_slice d) 0 (length d) = Some d.
Proof.
  apply cells_intro. intros i _. unfold of_slice. simpl.
  destruct (Z.ltb_spec (Z.of_nat i) 0); [lia|].
  now rewrite Nat2Z.id.
Qed.

Lemma write_loop_other vs : forall b k j,
  j < k \/ k + len vs <= j -> write_loop b k vs j = b j.
Proof.
  induction vs as [|v vs IH]; simpl; intros b k j H; [reflexivity|].
  unfold len in *; simpl length in H.
  rewrite IH by lia. unfold store.
  destruct (Z.eqb_spec j k); [lia | reflexivity].
Qed.

Lemma cells_write_loop vs : forall b k,
  cells (write_loop b k vs) k (length vs) = Some vs.
Proof.
  induction vs as [|v vs IH]; simpl; intros b k; [reflexivity|].
  rewrite write_loop_other by lia.
  unfold store at 1. rewrite Z.eqb_refl.
  now rewrite IH.
Qed.

(** ** One chunk *)

Lemma chunk_rep_data c w :
  chunk_rep c w ->
  exists b, data c = Some b /\
            cells b (offset c) (Z.to_nat (size c - offset c)) = Some w.
Proof.
  intros (_ & _ & H). unfold valid_window in H.
  destruct (data c) as [b|]; [|discriminate]. now exists b.
Qed.

Lemma chunk_rep_len c w : chunk_rep c w -> len w = size c - offset c.
Proof.
  intros H. destruct (chunk_rep_data H) as (b & _ & Hc).
  destruct H as (? & ? & _).
  apply cells_length in Hc. unfold len. lia.
Qed.

Lemma chunk_rep_pos c w : chunk_rep c w -> 0 < len w.
Proof.
  intros H. rewrite (chunk_rep_len H). destruct H as (? & ? & _). lia.
Qed.

Lemma new_block_rep d : d <> [] -> chunk_rep (new_block d) d.
Proof.
  intros Hd. unfold chunk_rep, valid_window; simpl.
  assert (0 < len d).
  { destruct d; [congruence | unfold len; simpl; lia]. }
  repeat split; try lia.
  replace (Z.to_nat (len d - 0)) with (length d) by (unfold len; lia).
  apply cells_of_slice.
Qed.

Lemma append_in_place_rep t w d :
  chunk_rep t w ->
  exists t', append_in_place t d = Some t' /\
             size t' = size t + len d /\ offset t' = offset t /\
             (d <> [] -> chunk_rep t' (w ++ d)).
Proof.
  intros H. destruct (chunk_rep_data H) as (b & Hb & Hc).
  destruct H as (H0 & H1 & _).
  unfold append_in_place. rewrite Hb.
  eexists; split; [reflexivity|]. simpl.
  split; [reflexivity|]. split; [reflexivity|].
  intros _. pose proof (len_nonneg d).
  unfold chunk_rep; simpl. split; [lia|]. split; [lia|].
  - unfold valid_window; simpl.
    replace (Z.to_nat (size t + len d - offset t))
      with (Z.to_nat (size t - offset t) + length d)%nat
      by (unfold len in *; lia).
    apply cells_app.
    + rewrite <- Hc. apply cells_ext. intros j Hj.
      apply write_loop_other. lia.
    + replace (offset t + Z.of_nat (Z.to_nat (size t - offset t)))
        with (size t) by lia.
      apply cells_write_loop.
Qed.

Lemma chunk_rep_front c v w :
  chunk_rep c (v :: w) ->
  load (data c) (offset c) = Some v /\
  len w = size c - (offset c + 1) /\
  (w <> [] ->
   chunk_rep {| data := data c; size := size c; offset := offset c + 1 |} w).
Proof.
  intros H. pose proof (chunk_rep_len H) as Hl.
  destruct (chunk_rep_data H) as (b & Hb & Hc).
  destruct H as (H0 & H1 & _).
  unfold len in Hl; simpl length in Hl.
  replace (Z.to_nat (size c - offset c)) with (1 + length w)%nat in Hc by lia.
  apply cells_split in Hc. destruct Hc as [Hc1 Hc2]. simpl in Hc1, Hc2.
  rewrite Hb. simpl.
  destruct (b (offset c)) as [v'|]; [|discriminate].
  inversion Hc1; subst v'.
  split; [reflexivity|]. split; [unfold len; lia|].
  intros Hw. unfold chunk_rep, valid_window; simpl.
  assert (0 < length w)%nat by (destruct w; [congruence | simpl; lia]).
  repeat split; try lia.
  now replace (Z.to_nat (size c - (offset c + 1))) with (length w) by lia.
Qed.

Lemma chunk_rep_back c v w :
  chunk_rep c (w ++ [v]) ->
  load (data c) (size c - 1) = Some v /\
  len w = size c - 1 - offset c /\
  (w <> [] ->
   chunk_rep {| data := data c; size := size c - 1; offset := offset c |} w).
Proof.
  intros H. pose proof (chunk_rep_len H) as Hl.
  destruct (chunk_rep_data H) as (b & Hb & Hc).
  destruct H as (H0 & H1 & _).
  rewrite len_app in Hl. unfold len in Hl; simpl length in Hl.
  replace (Z.to_nat (size c - offset c)) with (length w + 1)%nat in Hc by lia.
  apply cells_split in Hc. destruct Hc as [Hc1 Hc2].
  rewrite firstn_app, Nat.sub_diag, firstn_all in Hc1.
  rewrite skipn_app, Nat.sub_diag, skipn_all in Hc2.
  simpl in Hc1, Hc2. rewrite app_nil_r in Hc1.
  replace (offset c + Z.of_nat (length w)) with (size c - 1) in Hc2 by lia.
  rewrite Hb. simpl.
  destruct (b (size c - 1)) as [v'|]; [|discriminate].
  inversion Hc2; subst v'.
  split; [reflexivity|]. split; [unfold len; lia|].
  intros Hw. unfold chunk_rep, valid_window; simpl.
  assert (0 < length w)%nat by (destruct w; [congruence | simpl; lia]).
  repeat split; try lia.
  now replace (Z.to_nat (size c - 1 - offset c)) with (length w) by lia.
Qed.

Lemma copy_valid_rep c w :
  chunk_rep c w -> copy_valid zero c (size c - offset c) = Some w.
Proof.
  intros H. destruct (chunk_rep_data H) as (b & Hb & Hc).
  destruct H as (H0 & H1 & _).
  unfold copy_valid, unsafe_Slice, from_index. rewrite Hb.
  destruct (Z.ltb_spec (size c) 0); [lia|]. simpl.
  destruct (Z.leb_spec 0 (offset c)); [|lia].
  destruct (Z.leb_spec (offset c) (size c)); [|lia].
  simpl. exact Hc.
Qed.

(** ** The chain *)

Lemma chain_rep_sum_valid cs ws :
  Forall2 (@chunk_rep T) cs ws -> len (concat ws) = sum_valid cs.
Proof.
  induction 1 as [|c w cs ws Hc _ IH]; simpl; [reflexivity|].
  rewrite len_app, IH, (chunk_rep_len Hc). reflexivity.
Qed.

Lemma chain_rep_empty cs ws :
  Forall2 (@chunk_rep T) cs ws -> concat ws = [] -> cs = [] /\ ws = [].
Proof.
  intros H E. destruct H as [|c w cs ws Hc _]; [now split|].
  simpl in E. apply chunk_rep_pos in Hc.
  apply app_eq_nil in E. destruct E as [-> _]. unfold len in Hc; simpl in Hc.
  lia.
Qed.

Lemma chain_rep_last cs c ws :
  Forall2 (@chunk_rep T) (cs ++ [c]) ws ->
  exists ws' w, ws = ws' ++ [w] /\ Forall2 (@chunk_rep T) cs ws' /\
                chunk_rep c w.
Proof.
  intros H. apply Forall2_app_inv_l in H.
  destruct H as (ws' & ws2 & H1 & H2 & ->).
  inversion H2 as [|? w ? ? Hc Hn]; subst. inversion Hn; subst.
  now exists ws', w.
Qed.

Lemma chain_rep_snoc cs c ws w :
  Forall2 (@chunk_rep T) cs ws -> chunk_rep c w ->
  Forall2 (@chunk_rep T) (cs ++ [c]) (ws ++ [w]).
Proof. intros H1 H2. apply Forall2_app; [assumption | now constructor]. Qed.

Lemma concat_snoc ws w : concat (ws ++ [w]) = concat ws ++ w.
Proof. rewrite concat_app. simpl. now rewrite app_nil_r. Qed.

Lemma Rep_nonempty cl ws :
  Rep cl ws -> ws <> [] -> (validSize cl =? 0) = false.
Proof.
  intros (Hch & Hv & _) Hne. apply Z.eqb_neq. rewrite Hv.
  destruct Hch as [|c w cs ws Hc _]; [congruence|].
  simpl. rewrite len_app. apply chunk_rep_pos in Hc.
  pose proof (len_nonneg (concat ws)). lia.
Qed.

(** ** Push *)

Lemma Push_nil cl : Push [] cl = Some cl.
Proof. reflexivity. Qed.

Lemma Push_Rep cl ws d :
  Rep cl ws -> d <> [] ->
  exists cl' ws', Push d cl = Some cl' /\ Rep cl' ws' /\
                  concat ws' = concat ws ++ d.
Proof.
  intros (Hch & Hv & Ht) Hd. unfold Push.
  assert (Hl : 0 < len d).
  { destruct d; [congruence | unfold len; simpl; lia]. }
  destruct (Z.eqb_spec (len d) 0) as [?|_]; [lia|].
  assert (Hbulk : Rep {| chain := chain cl ++ [new_block d];
                         totalSize := totalSize cl + len d;
                         validSize := validSize cl + len d;
                         root := root cl |} (ws ++ [d])).
  { unfold Rep; simpl. split; [|split].
    - apply chain_rep_snoc; [assumption | now apply new_block_rep].
    - rewrite concat_snoc, len_app. lia.
    - lia. }
  destruct (unsnoc (chain cl)) as [[before t]|] eqn:E.
  - destruct ((len d <=? 8) && (size t - offset t <? 16)).
    + apply unsnoc_Some in E. rewrite E in Hch.
      apply chain_rep_last in Hch. destruct Hch as (ws' & w & -> & H1 & H2).
      destruct (append_in_place_rep d H2) as (t' & -> & _ & _ & Ht').
      eexists; exists (ws' ++ [w ++ d]). split; [reflexivity|].
      split.
      * unfold Rep; simpl. split; [|split].
        -- apply chain_rep_snoc; auto.
        -- rewrite concat_snoc in *. rewrite !len_app in *. lia.
        -- lia.
      * rewrite !concat_snoc. now rewrite app_assoc.
    + eexists; exists (ws ++ [d]). split; [reflexivity|].
      split; [assumption | apply concat_snoc].
  - eexists; exists (ws ++ [d]). split; [reflexivity|].
    split; [assumption | apply concat_snoc].
Qed.

(** ** PopFront and PopEnd *)

Lemma PopFront_empty cl :
  chain cl = [] -> PopFront zero cl = Some (cl, (zero, false)).
Proof. intros H. unfold PopFront. now rewrite H. Qed.

Lemma PopEnd_empty cl :
  chain cl = [] -> PopEnd zero cl = Some (cl, (zero, false)).
Proof. intros H. unfold PopEnd. now rewrite H. Qed.

Lemma PopFront_Rep cl ws v l :
  Rep cl ws -> concat ws = v :: l ->
  exists cl' ws', PopFront zero cl = Some (cl', (v, true)) /\
                  Rep cl' ws' /\ concat ws' = l.
Proof.
  intros HR E. pose proof HR as (Hch & Hv & Ht).
  unfold PopFront.
  rewrite (Rep_nonempty HR) by (intros ->; discriminate).
  inversion Hch as [Ec Ew|c w cs ws' Hc Hcs Ec Ew]; subst ws;
    [discriminate|].
  rename ws' into ws. rewrite <- Ec in *. clear Ec.
  destruct w as [|v' w].
  { apply chunk_rep_pos in Hc. unfold len in Hc; simpl in Hc; lia. }
  simpl in E. inversion E; subst v' l. clear E.
  destruct (chunk_rep_front Hc) as (Hload & Hlen & Hrest).
  pose proof Hc as (H0 & H1 & _).
  destruct (Z.leb_spec (size c) (offset c)); [lia|].
  rewrite Hload. simpl.
  simpl in Hv. unfold len in Hv, Hlen. simpl length in Hv.
  rewrite length_app in Hv.
  assert (Hkeep : w <> [] ->
    Rep {| chain := {| data := data c; size := size c;
                       offset := offset c + 1 |} :: cs;
           totalSize := totalSize cl - 1;
           validSize := validSize cl - 1;
           root := root cl |} (w :: ws)).
  { intros Hw. unfold Rep; simpl. split; [|split].
    - constructor; auto.
    - unfold len. rewrite length_app. lia.
    - lia. }
  destruct (Z.ltb_spec (offset c + 1) (size c - 8)).
  - eexists; exists (w :: ws). split; [reflexivity|].
    split; [|reflexivity]. apply Hkeep. intros ->. simpl in Hlen. lia.
  - destruct (Z.leb_spec (size c) (offset c + 1)).
    + assert (w = []) by (destruct w; [reflexivity | simpl in Hlen; lia]).
      subst w. eexists; exists ws. split; [reflexivity|].
      split; [|reflexivity].
      unfold Rep, set_chain; simpl. split; [assumption|].
      simpl in Hv. unfold len. lia.
    + eexists; exists (w :: ws). split; [reflexivity|].
      split; [|reflexivity]. apply Hkeep. intros ->. simpl in Hlen. lia.
Qed.

Lemma PopEnd_Rep cl ws v l :
  Rep cl ws -> concat ws = l ++ [v] ->
  exists cl' ws', PopEnd zero cl = Some (cl', (v, true)) /\
                  Rep cl' ws' /\ concat ws' = l.
Proof.
  intros HR E. pose proof HR as (Hch & Hv & Ht).
  assert (Hne : ws <> []) by (intros ->; destruct l; discriminate).
  unfold PopEnd.
  destruct (unsnoc (chain cl)) as [[prev c]|] eqn:Eu.
  2:{ apply unsnoc_None in Eu. rewrite Eu in Hch. inversion Hch.
      congruence. }
  apply unsnoc_Some in Eu. rewrite Eu in Hch.
  apply chain_rep_last in Hch. destruct Hch as (ws' & w & -> & Hcs & Hc).
  rewrite (Rep_nonempty HR) by assumption.
  rewrite concat_snoc in E, Hv.
  destruct (@exists_last _ w) as (w' & v' & ->).
  { intros ->. apply chunk_rep_pos in Hc. unfold len in Hc; simpl in Hc.
    lia. }
  rewrite app_assoc in E. apply app_inj_tail in E. destruct E as [<- <-].
  destruct (chunk_rep_back _ _ Hc) as (Hload & Hlen & Hrest).
  pose proof Hc as (H0 & H1 & _).
  rewrite Hload. simpl.
  rewrite !len_app in Hv. unfold len in Hv at 3. simpl length in Hv.
  destruct (Z.leb_spec (size c - 1) (offset c)).
  - assert (w' = []) by (apply len_nil_iff; pose proof (len_nonneg w'); lia).
    subst w'. eexists; exists ws'. split; [reflexivity|].
    split; [|now rewrite app_nil_r].
    unfold Rep, set_chain; simpl. split; [assumption|].
    unfold len in *; simpl in *. lia.
  - eexists; exists (ws' ++ [w']). split; [reflexivity|].
    split; [|apply concat_snoc].
    unfold Rep; simpl. split; [|split].
    + apply chain_rep_snoc; [assumption|]. apply Hrest.
      intros ->. unfold len in Hlen; simpl in Hlen. lia.
    + rewrite concat_snoc, len_app. lia.
    + lia.
Qed.

(** ** PopChunkFront and PopChunkEnd *)

Lemma PopChunkFront_empty cl :
  chain cl = [] -> PopChunkFront zero cl = Some (cl, ([], false)).
Proof. intros H. unfold PopChunkFront. now rewrite H. Qed.

Lemma PopChunkEnd_empty cl :
  chain cl = [] -> PopChunkEnd zero cl = Some (cl, ([], false)).
Proof. intros H. unfold PopChunkEnd. now rewrite H. Qed.

Lemma PopChunkFront_Rep cl w ws :
  Rep cl (w :: ws) ->
  exists cl', PopChunkFront zero cl = Some (cl', (w, true)) /\ Rep cl' ws.
Proof.
  intros HR. pose proof HR as (Hch & Hv & Ht).
  inversion Hch as [|c ? cs ? Hc Hcs Ec]; subst.
  unfold PopChunkFront. rewrite <- Ec.
  rewrite (Rep_nonempty HR) by discriminate.
  pose proof Hc as (H0 & H1 & _).
  destruct (Z.leb_spec (size c - offset c) 0); [lia|].
  rewrite (copy_valid_rep Hc).
  eexists; split; [reflexivity|].
  unfold Rep, drop_counts; simpl. split; [assumption|].
  simpl in Hv. rewrite len_app, (chunk_rep_len Hc) in Hv. lia.
Qed.

Lemma PopChunkEnd_Rep cl w ws :
  Rep cl (ws ++ [w]) ->
  exists cl', PopChunkEnd zero cl = Some (cl', (w, true)) /\ Rep cl' ws.
Proof.
  intros HR. pose proof HR as (Hch & Hv & Ht).
  unfold PopChunkEnd.
  destruct (unsnoc (chain cl)) as [[prev c]|] eqn:Eu.
  2:{ apply unsnoc_None in Eu. rewrite Eu in Hch. inversion Hch.
      destruct ws; discriminate. }
  apply unsnoc_Some in Eu. rewrite Eu in Hch.
  apply chain_rep_last in Hch. destruct Hch as (ws' & w' & E & Hcs & Hc).
  apply app_inj_tail in E. destruct E as [<- <-].
  rewrite (Rep_nonempty HR) by (destruct ws; discriminate).
  pose proof Hc as (H0 & H1 & _).
  destruct (Z.leb_spec (size c - offset c) 0); [lia|].
  rewrite (copy_valid_rep Hc).
  eexists; split; [reflexivity|].
  unfold Rep, drop_counts; simpl. split; [assumption|].
  rewrite concat_snoc, len_app, (chunk_rep_len Hc) in Hv. lia.
Qed.

(** ** Runs *)

Lemma Rep_New : Rep (@NewChunkPipe T) [].
Proof. unfold Rep; simpl. repeat split. constructor. Qed.

Lemma Rep_chain_nil cl ws : Rep cl ws -> concat ws = [] -> chain cl = [].
Proof. intros (H & _) E. now destruct (chain_rep_empty H E). Qed.

(** Every operation keeps the representation, never faults on a
    represented state, and moves the element count by what it pushed or
    popped. *)
Lemma exec_Rep o cl ws :
  Rep cl ws ->
  exists cl' r ws',
    exec zero o cl = Some (cl', r) /\ Rep cl' ws' /\
    len (concat ws') = len (concat ws) + pushed [o] - popped [r].
Proof.
  intros HR. unfold pushed, popped.
  destruct o as [d| | | |]; cbn [exec fold_right].
  - destruct d as [|x d].
    + exists cl, RPush, ws. rewrite Push_nil.
      split; [reflexivity|]. split; [exact HR|]. change (len []) with 0. lia.
    + destruct (@Push_Rep cl ws (x :: d) HR) as (cl' & ws' & -> & HR' & E);
        [discriminate|].
      exists cl', RPush, ws'.
      split; [reflexivity|]. split; [exact HR'|]. rewrite E, len_app. lia.
  - destruct (concat ws) as [|v l] eqn:E.
    + rewrite (PopFront_empty cl (Rep_chain_nil HR E)).
      exists cl, (RValue zero false), ws.
      split; [reflexivity|]. split; [exact HR|]. rewrite E. lia.
    + destruct (PopFront_Rep HR E) as (cl' & ws' & -> & HR' & E').
      exists cl', (RValue v true), ws'.
      split; [reflexivity|]. split; [exact HR'|].
      rewrite E', len_cons. lia.
  - destruct (concat ws) as [|x l0] eqn:E.
    + rewrite (PopEnd_empty cl (Rep_chain_nil HR E)).
      exists cl, (RValue zero false), ws.
      split; [reflexivity|]. split; [exact HR|]. rewrite E. lia.
    + destruct (@exists_last _ (x :: l0)) as (l & v & El); [discriminate|].
      rewrite El in E.
      destruct (PopEnd_Rep _ _ HR E) as (cl' & ws' & -> & HR' & E').
      exists cl', (RValue v true), ws'.
      split; [reflexivity|]. split; [exact HR'|].
      rewrite E', El, len_app. change (len [v]) with 1. lia.
  - destruct ws as [|w ws].
    + rewrite (PopChunkFront_empty cl (Rep_chain_nil HR eq_refl)).
      exists cl, (RChunk [] false), [].
      split; [reflexivity|]. split; [exact HR|]. cbn [fst snd]. lia.
    + destruct (PopChunkFront_Rep HR) as (cl' & -> & HR').
      exists cl', (RChunk w true), ws.
      split; [reflexivity|]. split; [exact HR'|].
      cbn [fst snd concat]. rewrite len_app. lia.
  - destruct ws as [|w0 ws0] eqn:Ews.
    + rewrite (PopChunkEnd_empty cl (Rep_chain_nil HR eq_refl)).
      exists cl, (RChunk [] false), [].
      split; [reflexivity|]. split; [exact HR|]. cbn [fst snd]. lia.
    + destruct (@exists_last _ (w0 :: ws0)) as (ws' & w & El);
        [discriminate|].
      rewrite El in HR.
      destruct (PopChunkEnd_Rep _ _ HR) as (cl' & -> & HR').
      exists cl', (RChunk w true), ws'.
      split; [reflexivity|]. split; [exact HR'|].
      cbn [fst snd]. rewrite El, concat_snoc, len_app. lia.
Qed.

Lemma pushed_cons (o : op T) ops : pushed (o :: ops) = pushed [o] + pushed ops.
Proof. unfold pushed. cbn [fold_right]. destruct o; lia. Qed.

Lemma popped_cons (r : result T) rs :
  popped (r :: rs) = popped [r] + popped rs.
Proof.
  unfold popped. cbn [fold_right]. destruct r as [|v ok|vs ok];
    try destruct ok; lia.
Qed.

Lemma run_Rep ops : forall cl ws,
  Rep cl ws ->
  exists cl' rs ws',
    run zero ops cl = Some (cl', rs) /\ Rep cl' ws' /\
    len (concat ws') = len (concat ws) + pushed ops - popped rs.
Proof.
  induction ops as [|o ops IH]; intros cl ws HR.
  - exists cl, [], ws. simpl. repeat split; try apply HR. lia.
  - destruct (exec_Rep o HR) as (cl1 & r & ws1 & E1 & HR1 & L1).
    destruct (IH cl1 ws1 HR1) as (cl2 & rs & ws2 & E2 & HR2 & L2).
    exists cl2, (r :: rs), ws2. cbn [run]. rewrite E1. cbn [fst snd].
    rewrite E2. cbn [fst snd]. split; [reflexivity|]. split; [exact HR2|].
    rewrite L2, L1, (pushed_cons o ops), (popped_cons r rs). lia.
Qed.

Lemma reachable_Rep cl : reachable zero cl -> exists ws, Rep cl ws.
Proof.
  intros (ops & rs & H).
  destruct (run_Rep ops Rep_New) as (cl' & rs' & ws & E & HR & _).
  rewrite E in H. inversion H; subst. now exists ws.
Qed.

(** No operation touches the index tree. *)
Lemma Push_root d cl cl' : Push d cl = Some cl' -> root cl' = root cl.
Proof.
  unfold Push. destruct (len d =? 0); [now inversion 1|].
  destruct (unsnoc (chain cl)) as [[before t]|]; [|now inversion 1].
  destruct ((len d <=? 8) && (size t - offset t <? 16)); [|now inversion 1].
  destruct (append_in_place t d); [now inversion 1 | discriminate].
Qed.

Lemma exec_root o cl cl' r : exec zero o cl = Some (cl', r) -> root cl' = root cl.
Proof.
  destruct o as [d| | | |]; simpl.
  - destruct (Push d cl) eqn:E; [|discriminate].
    inversion 1; subst. eapply Push_root; eauto.
  - unfold PopFront. destruct (chain cl) as [|b next]; [now inversion 1|].
    destruct (validSize cl =? 0); [now inversion 1|].
    destruct (size b <=? offset b); [now inversion 1|].
    destruct (load (data b) (offset b)); [|discriminate]. simpl.
    destruct (offset b + 1 <? size b - 8); [now inversion 1|].
    destruct (size b <=? offset b + 1); now inversion 1.
  - unfold PopEnd. destruct (unsnoc (chain cl)) as [[prev b]|];
      [|now inversion 1].
    destruct (validSize cl =? 0); [now inversion 1|].
    destruct (load (data b) (size b - 1)); [|discriminate]. simpl.
    destruct (size b - 1 <=? offset b); now inversion 1.
  - unfold PopChunkFront. destruct (chain cl) as [|b next];
      [now inversion 1|].
    destruct (validSize cl =? 0); [now inversion 1|].
    destruct (size b - offset b <=? 0); [now inversion 1|].
    destruct (copy_valid zero b (size b - offset b)); [|discriminate].
    now inversion 1.
  - unfold PopChunkEnd. destruct (unsnoc (chain cl)) as [[prev b]|];
      [|now inversion 1].
    destruct (validSize cl =? 0); [now inversion 1|].
    destruct (size b - offset b <=? 0); [now inversion 1|].
    destruct (copy_valid zero b (size b - offset b)); [|discriminate].
    now inversion 1.
Qed.

Lemma run_root ops : forall cl cl' rs,
  run zero ops cl = Some (cl', rs) -> root cl' = root cl.
Proof.
  induction ops as [|o ops IH]; simpl; intros cl cl' rs H.
  - now inversion H.
  - destruct (exec zero o cl) as [[cl1 r]|] eqn:E1; [|discriminate].
    simpl in H.
    destruct (run zero ops cl1) as [[cl2 rs2]|] eqn:E2; [|discriminate].
    inversion H; subst. simpl.
    rewrite (IH _ _ _ E2). eapply exec_root; eauto.
Qed.

(** ** Range and Get *)

Lemma range_loop_Rep cs ws :
  Forall2 (@chunk_rep T) cs ws ->
  forall acc, range_loop cs acc = Some (acc ++ concat ws).
Proof.
  induction 1 as [|c w cs ws Hc _ IH]; intros acc; simpl.
  - now rewrite app_nil_r.
  - destruct Hc as (H0 & H1 & Hw).
    destruct (Z.ltb_spec (offset c) (size c)); [|lia].
    rewrite Hw, IH. now rewrite app_assoc.
Qed.

Lemma Range_Rep cl ws : Rep cl ws -> Range cl = Some (concat ws).
Proof.
  intros (Hch & Hv & _). unfold Range.
  destruct (Z.eqb_spec (validSize cl) 0) as [E|_].
  - rewrite Hv in E. apply len_nil_iff in E. now rewrite E.
  - apply (range_loop_Rep Hch []).
Qed.

Lemma get_loop_Rep cs ws :
  Forall2 (@chunk_rep T) cs ws ->
  forall i, 0 <= i < len (concat ws) ->
  exists v, nth_error (concat ws) (Z.to_nat i) = Some v /\
            get_loop zero cs i = Some (v, true).
Proof.
  induction 1 as [|c w cs ws Hc _ IH]; intros i Hi; simpl in *.
  - unfold len in Hi; simpl in Hi. lia.
  - pose proof (chunk_rep_len Hc) as Hl.
    destruct (chunk_rep_data Hc) as (b & Hb & Hcells).
    destruct Hc as (H0 & H1 & _).
    rewrite len_app in Hi.
    destruct (Z.ltb_spec i (size c - offset c)).
    + rewrite Hb. simpl.
      assert (Hn : (Z.to_nat i < Z.to_nat (size c - offset c))%nat) by lia.
      pose proof (cells_nth _ _ Hcells Hn) as Hr.
      replace (offset c + Z.of_nat (Z.to_nat i)) with (offset c + i) in Hr
        by lia.
      rewrite Hr.
      assert (Hlt : (Z.to_nat i < length w)%nat) by (unfold len in Hl; lia).
      rewrite nth_error_app1 by exact Hlt.
      destruct (nth_error w (Z.to_nat i)) as [v|] eqn:Ev.
      * now exists v.
      * apply nth_error_None in Ev. lia.
    + destruct (IH (i - (size c - offset c))) as (v & Hv & Hg); [lia|].
      exists v. split; [|exact Hg].
      rewrite nth_error_app2 by (unfold len in Hl; lia).
      rewrite <- Hv. f_equal. unfold len in Hl. lia.
Qed.

Lemma Get_Rep cl ws i :
  Rep cl ws -> 0 <= i < validSize cl ->
  exists v, nth_error (concat ws) (Z.to_nat i) = Some v /\
            Get zero i cl = Some (v, true).
Proof.
  intros (Hch & Hv & _) Hi. unfold Get.
  destruct (Z.ltb_spec i 0); [lia|].
  destruct (Z.leb_spec (validSize cl) i); [lia|]. simpl.
  apply get_loop_Rep; [assumption | lia].
Qed.

Lemma Get_out_of_range cl i :
  i < 0 \/ validSize cl <= i -> Get zero i cl = Some (zero, false).
Proof.
  intros H. unfold Get.
  destruct (Z.ltb_spec i 0); [reflexivity|].
  destruct (Z.leb_spec (validSize cl) i); [reflexivity | lia].
Qed.

(** ** RangeValues *)

Lemma visited_all (fn : closure T) l : forall log,
  passes fn log l = true -> visited fn log l = l.
Proof.
  induction l as [|v l IH]; intros log; cbn [passes visited];
    [reflexivity|].
  destruct (fn log v); cbn [andb]; [|discriminate].
  intros H. now rewrite IH.
Qed.

Lemma passes_app (fn : closure T) p q : forall log,
  passes fn log (p ++ q) = passes fn log p && passes fn (log ++ p) q.
Proof.
  induction p as [|v p IH]; intros log; cbn [app passes].
  - now rewrite app_nil_r.
  - rewrite IH, <- app_assoc. cbn [app]. now rewrite andb_assoc.
Qed.

Lemma visited_app (fn : closure T) p q : forall log,
  visited fn log (p ++ q) =
  if passes fn log p then p ++ visited fn (log ++ p) q
  else visited fn log p.
Proof.
  induction p as [|v p IH]; intros log; cbn [app passes visited].
  - now rewrite app_nil_r.
  - destruct (fn log v); cbn [andb]; [|reflexivity].
    rewrite IH, <- app_assoc. cbn [app]. now destruct (passes fn (log ++ [v]) p).
Qed.

Lemma index_cells (s : slice T) i n l k :
  cells (s_mem s) i n = Some l -> 0 <= i -> i + Z.of_nat n <= s_len s ->
  (k < n)%nat -> index s (i + Z.of_nat k) = nth_error l k.
Proof.
  intros Hc Hi Hn Hk. unfold index.
  destruct (Z.leb_spec 0 (i + Z.of_nat k)); [|lia].
  destruct (Z.ltb_spec (i + Z.of_nat k) (s_len s)); [|lia].
  simpl. eapply cells_nth; eauto.
Qed.

Lemma not_fn_step (fn : closure T) (s : slice T) i v (rest : M T bool) log :
  index s i = Some v ->
  orelse (not_fn fn s i) rest log =
  if fn log v then rest (log ++ [v]) else Some (true, log ++ [v]).
Proof.
  intros H. unfold orelse, bind, not_fn, ret. rewrite H.
  now destruct (fn log v).
Qed.

Lemma not_fn_last (fn : closure T) (s : slice T) i v log :
  index s i = Some v ->
  not_fn fn s i log = Some (negb (fn log v), log ++ [v]).
Proof. intros H. unfold not_fn. now rewrite H. Qed.

(** The sixteen calls of the unrolled condition are the calls of a plain
    left-to-right scan of the batch. *)
Lemma batch_stops_spec (fn : closure T) (s : slice T) i l log :
  cells (s_mem s) i 16 = Some l -> 0 <= i -> i + 16 <= s_len s ->
  batch_stops fn s i log =
  Some (negb (passes fn log l), log ++ visited fn log l).
Proof.
  intros Hc Hi Hn.
  assert (Hidx : forall k v, (k < 16)%nat -> nth_error l k = Some v ->
                             index s (i + Z.of_nat k) = Some v).
  { intros k v Hk Hv. rewrite <- Hv. eapply index_cells; eauto. }
  pose proof (cells_length _ _ _ Hc) as Hl.
  do 16 (destruct l as [|? l]; [discriminate|]).
  destruct l; [|discriminate]. clear Hl Hc.
  pose proof (Hidx 0%nat _ ltac:(lia) eq_refl) as H0.
  pose proof (Hidx 1%nat _ ltac:(lia) eq_refl) as H1.
  pose proof (Hidx 2%nat _ ltac:(lia) eq_refl) as H2.
  pose proof (Hidx 3%nat _ ltac:(lia) eq_refl) as H3.
  pose proof (Hidx 4%nat _ ltac:(lia) eq_refl) as H4.
  pose proof (Hidx 5%nat _ ltac:(lia) eq_refl) as H5.
  pose proof (Hidx 6%nat _ ltac:(lia) eq_refl) as H6.
  pose proof (Hidx 7%nat _ ltac:(lia) eq_refl) as H7.
  pose proof (Hidx 8%nat _ ltac:(lia) eq_refl) as H8.
  pose proof (Hidx 9%nat _ ltac:(lia) eq_refl) as H9.
  pose proof (Hidx 10%nat _ ltac:(lia) eq_refl) as H10.
  pose proof (Hidx 11%nat _ ltac:(lia) eq_refl) as H11.
  pose proof (Hidx 12%nat _ ltac:(lia) eq_refl) as H12.
  pose proof (Hidx 13%nat _ ltac:(lia) eq_refl) as H13.
  pose proof (Hidx 14%nat _ ltac:(lia) eq_refl) as H14.
  pose proof (Hidx 15%nat _ ltac:(lia) eq_refl) as H15.
  clear Hidx. cbn [Z.of_nat Pos.of_succ_nat Pos.succ] in *.
  replace (i + 0) with i in H0 by lia.
  unfold batch_stops. cbn [passes visited].
  repeat (erewrite not_fn_step by eassumption;
          destruct (fn _ _); cbv iota;
          [|cbn [andb negb]; rewrite <- ?app_assoc; reflexivity]).
  erewrite not_fn_last by eassumption.
  destruct (fn _ _); cbn [andb negb]; rewrite <- ?app_assoc; reflexivity.
Qed.

Lemma rest_loop_spec (fn : closure T) (s : slice T) :
  forall fuel q i log,
    cells (s_mem s) i (length q) = Some q -> 0 <= i ->
    s_len s = i + len q -> (length q < fuel)%nat ->
    rest_loop fuel fn s (s_len s) i log =
    Some (if passes fn log q then Continue (s_len s) else Return,
          log ++ visited fn log q).
Proof.
  induction fuel as [|fuel IH]; intros q i log Hc Hi Hn Hf; [lia|].
  cbn [rest_loop]. destruct q as [|v q].
  - change (len []) with 0 in Hn.
    destruct (Z.ltb_spec i (s_len s)); [lia|].
    unfold ret. simpl. rewrite app_nil_r. f_equal. f_equal. f_equal. lia.
  - rewrite len_cons in Hn. pose proof (len_nonneg q).
    destruct (Z.ltb_spec i (s_len s)); [|lia].
    assert (Hv : index s i = Some v).
    { replace i with (i + Z.of_nat 0) by (simpl; lia).
      erewrite index_cells; eauto; simpl length; unfold len in *; try lia.
      reflexivity. }
    unfold bind. rewrite (not_fn_last fn s i log Hv).
    cbn [passes visited]. destruct (fn log v); cbn [negb andb].
    + simpl in Hc. destruct (s_mem s i); [|discriminate].
      destruct (cells (s_mem s) (i + 1) (length q)) eqn:E; [|discriminate].
      inversion Hc; subst.
      rewrite (IH q (i + 1) (log ++ [v])); try lia;
        [|assumption|simpl in Hf; lia].
      now rewrite <- app_assoc.
    + reflexivity.
Qed.

(** One round of the batch loop. *)
Lemma batch_loop_step (fn : closure T) (s : slice T) fuel l i log :
  cells (s_mem s) i (length l) = Some l -> 0 <= i ->
  s_len s = i + len l -> i + 16 <= s_len s ->
  batch_loop (S fuel) fn s (s_len s) i log =
  if passes fn log (firstn 16 l)
  then batch_loop fuel fn s (s_len s) (i + 16) (log ++ firstn 16 l)
  else Some (Return, log ++ visited fn log (firstn 16 l)).
Proof.
  intros Hc Hi Hn Hge. cbn [batch_loop]. unfold batchSize.
  destruct (Z.leb_spec (i + 16) (s_len s)); [|lia].
  assert (Hlen : (length l = 16 + (length l - 16))%nat)
    by (unfold len in Hn; lia).
  pose proof Hc as Hc'. rewrite Hlen in Hc'.
  apply cells_split in Hc'. destruct Hc' as [Hc1 _].
  assert (Htouch : (if i + 16 * 2 <=? s_len s then touch s (i + 16)
                    else ret tt) log = Some (tt, log)).
  { destruct (Z.leb_spec (i + 16 * 2) (s_len s)); [|reflexivity].
    unfold touch.
    assert (H16 : (16 < length l)%nat) by (unfold len in Hn; lia).
    pose proof (@index_cells s i (length l) l 16%nat Hc Hi
                  ltac:(unfold len in Hn; lia) H16) as Hix.
    change (Z.of_nat 16) with 16 in Hix. rewrite Hix.
    destruct (nth_error l 16) eqn:E; [reflexivity|].
    apply nth_error_None in E. lia. }
  unfold bind at 1. rewrite Htouch.
  unfold bind at 1.
  rewrite (@batch_stops_spec fn s i (firstn 16 l) log Hc1 Hi Hge).
  destruct (passes fn log (firstn 16 l)) eqn:E1; cbn [negb].
  - now rewrite (visited_all _ _ _ E1).
  - reflexivity.
Qed.

Lemma batch_loop_spec (fn : closure T) (s : slice T) :
  forall fuel l i log,
    cells (s_mem s) i (length l) = Some l -> 0 <= i ->
    s_len s = i + len l -> (length l < 16 * fuel)%nat ->
    (passes fn log l = false /\
     batch_loop fuel fn s (s_len s) i log =
     Some (Return, log ++ visited fn log l)) \/
    (exists p q, l = p ++ q /\ (length q < 16)%nat /\
       passes fn log p = true /\
       batch_loop fuel fn s (s_len s) i log =
       Some (Continue (i + len p), log ++ p)).
Proof.
  induction fuel as [|fuel IH]; intros l i log Hc Hi Hn Hf; [lia|].
  destruct (Z.leb_spec (i + 16) (s_len s)) as [Hge|Hlt].
  - rewrite (@batch_loop_step fn s fuel l i log Hc Hi Hn Hge).
    assert (Hlen : (length l = 16 + (length l - 16))%nat)
      by (unfold len in Hn; lia).
    pose proof Hc as Hc'. rewrite Hlen in Hc'.
    apply cells_split in Hc'. destruct Hc' as [Hc1 Hc2].
    change (Z.of_nat 16) with 16 in Hc2.
    pose proof (firstn_skipn 16 l) as Hl.
    set (l1 := firstn 16 l) in *. set (l2 := skipn 16 l) in *.
    assert (Hl2 : length l2 = (length l - 16)%nat)
      by (unfold l2; apply length_skipn).
    assert (Hfa : passes fn log l =
                  passes fn log l1 && passes fn (log ++ l1) l2)
      by (rewrite <- Hl; apply passes_app).
    assert (Hvis : visited fn log l =
                   if passes fn log l1 then l1 ++ visited fn (log ++ l1) l2
                   else visited fn log l1)
      by (rewrite <- Hl; apply visited_app).
    rewrite Hfa, Hvis.
    destruct (passes fn log l1) eqn:E1; cbn [andb].
    + rewrite <- Hl2 in Hc2.
      assert (Hl1 : len l1 = 16).
      { unfold len. apply cells_length in Hc1. rewrite Hc1. reflexivity. }
      destruct (IH l2 (i + 16) (log ++ l1) Hc2) as [[Ef Hr]|Hr];
        try lia.
      * rewrite <- Hl, len_app in Hn. lia.
      * left. split; [exact Ef|]. rewrite Hr. now rewrite <- app_assoc.
      * right. destruct Hr as (p & q & Epq & Hq & Ep & Hr).
        exists (l1 ++ p), q. rewrite <- Hl, Epq, app_assoc.
        split; [reflexivity|]. split; [exact Hq|].
        rewrite passes_app, E1, Ep. split; [reflexivity|].
        rewrite Hr, len_app, Hl1, <- app_assoc.
        f_equal. f_equal. f_equal. lia.
    + left. split; reflexivity.
  - right. exists [], l. split; [reflexivity|].
    split; [unfold len in Hn; lia|]. split; [reflexivity|].
    cbn [batch_loop]. unfold batchSize.
    destruct (Z.leb_spec (i + 16) (s_len s)); [lia|].
    unfold ret. rewrite app_nil_r. f_equal. f_equal. f_equal.
    change (len []) with 0. lia.
Qed.

Lemma range_chunk_spec (fn : closure T) c w log :
  chunk_rep c w ->
  exists f, range_chunk fn c log = Some (f, log ++ visited fn log w) /\
            (passes fn log w = true -> exists i, f = Continue i) /\
            (passes fn log w = false -> f = Return).
Proof.
  intros Hc. pose proof (chunk_rep_len Hc) as Hl.
  destruct (chunk_rep_data Hc) as (b & Hb & Hcells).
  destruct Hc as (H0 & H1 & _).
  unfold range_chunk, unsafe_Slice. rewrite Hb.
  destruct (Z.ltb_spec (size c) 0); [lia|].
  assert (Hn : Z.to_nat (size c - offset c) = length w)
    by (unfold len in Hl; lia).
  rewrite Hn in *.
  set (s := {| s_mem := b; s_len := size c |}).
  change (size c) with (s_len s).
  assert (Hs : s_len s = size c) by reflexivity.
  unfold bind at 1.
  destruct (@batch_loop_spec fn s (S (length w)) w (offset c) log)
    as [[Ef Hr]|(p & q & Epq & Hq & Ep & Hr)]; try assumption.
  - simpl. lia.
  - lia.
  - rewrite Hr. exists Return. split; [reflexivity|].
    split; [congruence | reflexivity].
  - rewrite Hr.
    assert (Hcq : cells (s_mem s) (offset c + len p) (length q) = Some q).
    { subst w. rewrite length_app in Hcells. apply cells_split in Hcells.
      destruct Hcells as [_ Hq2].
      rewrite skipn_app, Nat.sub_diag, skipn_all in Hq2. exact Hq2. }
    rewrite (@rest_loop_spec fn s (S (length w)) q (offset c + len p)
               (log ++ p) Hcq).
    + subst w. rewrite visited_app, passes_app, Ep, <- app_assoc.
      cbn [andb].
      exists (if passes fn (log ++ p) q then Continue (s_len s) else Return).
      split; [reflexivity|].
      destruct (passes fn (log ++ p) q); split; try discriminate; eauto.
    + pose proof (len_nonneg p). lia.
    + subst w. rewrite len_app in Hl. simpl. lia.
    + subst w. rewrite length_app. lia.
Qed.

Lemma values_loop_spec (fn : closure T) cs ws :
  Forall2 (@chunk_rep T) cs ws ->
  forall log,
    values_loop fn cs log = Some (tt, log ++ visited fn log (concat ws)).
Proof.
  induction 1 as [|c w cs ws Hc _ IH]; intros log; cbn [values_loop concat].
  - unfold ret. simpl. now rewrite app_nil_r.
  - pose proof Hc as (H0 & H1 & _).
    destruct (Z.ltb_spec (offset c) (size c)); [|lia].
    destruct (@range_chunk_spec fn c w log Hc) as (f & Hr & Ht & Hf).
    unfold bind. rewrite Hr. rewrite visited_app.
    destruct (passes fn log w) eqn:E.
    + destruct (Ht eq_refl) as (i & ->).
      rewrite IH, (visited_all _ _ _ E). now rewrite <- app_assoc.
    + rewrite (Hf eq_refl). reflexivity.
Qed.

Lemma RangeValues_Rep (fn : closure T) cl ws :
  Rep cl ws -> RangeValues fn cl = Some (visited fn [] (concat ws)).
Proof.
  intros (Hch & _). unfold RangeValues.
  now rewrite (values_loop_spec fn Hch []).
Qed.

(** A closure that answers true at each of its first [j] calls on [l]
    passes the first [j] elements. *)
Lemma passes_firstn (fn : closure T) l : forall log j,
  (forall i x, (i < j)%nat -> nth_error l i = Some x ->
               fn (log ++ firstn i l) x = true) ->
  passes fn log (firstn j l) = true.
Proof.
  induction l as [|v l IH]; intros log j H.
  - now rewrite firstn_nil.
  - destruct j as [|j]; [reflexivity|]. cbn [firstn passes].
    generalize (H O v (Nat.lt_0_succ j) eq_refl).
    cbn [firstn]. rewrite app_nil_r. intros ->. cbn [andb].
    apply IH. intros i x Hi Hx.
    generalize (H (S i) x ltac:(lia) Hx). cbn [firstn].
    now rewrite <- app_assoc.
Qed.

Lemma visited_first_false (fn : closure T) l : forall log j v,
  passes fn log (firstn j l) = true -> nth_error l j = Some v ->
  fn (log ++ firstn j l) v = false ->
  visited fn log l = firstn (S j) l.
Proof.
  induction l as [|x l IH]; intros log j v Hp Hv Hf.
  - destruct j; discriminate.
  - destruct j as [|j]; cbn [firstn passes visited nth_error] in *.
    + inversion Hv; subst. rewrite app_nil_r in Hf. now rewrite Hf.
    + apply andb_true_iff in Hp. destruct Hp as [-> Hp].
      f_equal. eapply IH; eauto. now rewrite <- app_assoc.
Qed.

(** ** Pushes followed by pops *)

Lemma run_app (a b : list (op T)) : forall cl,
  run zero (a ++ b) cl =
  match run zero a cl with
  | Some (cl1, r1) =>
      match run zero b cl1 with
      | Some (cl2, r2) => Some (cl2, r1 ++ r2)
      | None => None
      end
  | None => None
  end.
Proof.
  induction a as [|o a IH]; intros cl; cbn [app run].
  - now destruct (run zero b cl) as [[cl2 r2]|].
  - destruct (exec zero o cl) as [[cl1 r]|]; [|reflexivity]. cbn [fst snd].
    rewrite IH. destruct (run zero a cl1) as [[cl2 r2]|]; [|reflexivity].
    cbn [fst snd]. now destruct (run zero b cl2) as [[cl3 r3]|].
Qed.

Lemma run_pop_front n : forall cl ws,
  Rep cl ws ->
  exists cl',
    run zero (repeat OpPopFront n) cl =
      Some (cl', map (fun v => RValue v true) (firstn n (concat ws)) ++
                 repeat (RValue zero false) (n - length (concat ws))).
Proof.
  induction n as [|n IH]; intros cl ws HR.
  - exists cl. reflexivity.
  - cbn [repeat run exec].
    destruct (concat ws) as [|v l] eqn:E.
    + rewrite (PopFront_empty cl (Rep_chain_nil HR E)). cbn [fst snd].
      destruct (IH cl ws HR) as (cl' & ->). cbn [fst snd].
      exists cl'. rewrite E. rewrite !firstn_nil. simpl length.
      rewrite !Nat.sub_0_r. reflexivity.
    + destruct (PopFront_Rep HR E) as (cl1 & ws1 & -> & HR1 & E1).
      cbn [fst snd].
      destruct (IH cl1 ws1 HR1) as (cl' & ->). cbn [fst snd].
      exists cl'. rewrite E1. reflexivity.
Qed.

Lemma run_pop_end n : forall cl ws,
  Rep cl ws ->
  exists cl',
    run zero (repeat OpPopEnd n) cl =
      Some (cl', map (fun v => RValue v true) (firstn n (rev (concat ws))) ++
                 repeat (RValue zero false) (n - length (concat ws))).
Proof.
  induction n as [|n IH]; intros cl ws HR.
  - exists cl. reflexivity.
  - cbn [repeat run exec].
    destruct (concat ws) as [|x l0] eqn:E.
    + rewrite (PopEnd_empty cl (Rep_chain_nil HR E)). cbn [fst snd].
      destruct (IH cl ws HR) as (cl' & ->). cbn [fst snd].
      exists cl'. rewrite E. cbn [rev]. rewrite !firstn_nil. simpl length.
      rewrite !Nat.sub_0_r. reflexivity.
    + destruct (@exists_last _ (x :: l0)) as (l & v & El); [discriminate|].
      rewrite El in *.
      destruct (PopEnd_Rep _ _ HR E) as (cl1 & ws1 & -> & HR1 & E1).
      cbn [fst snd].
      destruct (IH cl1 ws1 HR1) as (cl' & ->). cbn [fst snd].
      exists cl'. rewrite E1, rev_app_distr, length_app.
      cbn [rev app firstn map length].
      replace (S n - (length l + 1))%nat with (n - length l)%nat by lia.
      reflexivity.
Qed.

(** ** The fast path of Push *)




(** ** Counters and valid windows in a represented state *)

Lemma Rep_offsets cl ws :
  Rep cl ws -> Forall (fun c => 0 <= offset c < size c) (chain cl).
Proof.
  intros (Hch & _). induction Hch as [|c w cs ws' Hc _ IH]; constructor.
  - destruct Hc as (? & ? & _). lia.
  - exact IH.
Qed.

Lemma Rep_sum_valid cl ws : Rep cl ws -> validSize cl = sum_valid (chain cl).
Proof.
  intros (Hch & Hv & _). rewrite Hv. now apply chain_rep_sum_valid.
Qed.

(** ** The index tree *)

Lemma insert_loop_nodes (newNode : TreeNode T) bsize bvalid t :
  nodes (insert_loop newNode bsize bvalid t) = (nodes t + nodes newNode)%nat.
Proof.
  induction t as [|s v a l IHl r IHr]; [reflexivity|].
  cbn [insert_loop].
  destruct l as [|ls lv la ll lr]; [simpl; lia|].
  destruct r as [|rs rv ra rl rr]; [simpl; lia|].
  destruct (ls <=? rs); cbn [nodes] in *; lia.
Qed.

(** [insertBlockToTree] adds exactly one node. *)
Lemma insertBlockToTree_nodes c cl :
  nodes (root (insertBlockToTree (Some c) cl)) = S (nodes (root cl)).
Proof.
  unfold insertBlockToTree. cbn [root].
  destruct (root cl) as [|s v a l r] eqn:E; [reflexivity|].
  rewrite insert_loop_nodes. simpl. lia.
Qed.

Lemma reachable_root cl : reachable zero cl -> root cl = Nil.
Proof. intros (ops & rs & H). now apply run_root in H. Qed.

(** ** Both counters move together *)

Lemma exec_same_delta o cl cl' r :
  exec zero o cl = Some (cl', r) ->
  totalSize cl' - totalSize cl = validSize cl' - validSize cl.
Proof.
  destruct o as [d| | | |]; cbn [exec].
  - unfold Push. destruct (len d =? 0); [inversion 1; lia|].
    destruct (unsnoc (chain cl)) as [[before t]|];
      [|inversion 1; cbn; lia].
    destruct ((len d <=? 8) && (size t - offset t <? 16));
      [|inversion 1; cbn; lia].
    destruct (append_in_place t d); [inversion 1; cbn; lia | discriminate].
  - unfold PopFront. destruct (chain cl) as [|b next]; [inversion 1; lia|].
    destruct (validSize cl =? 0); [inversion 1; lia|].
    destruct (size b <=? offset b); [inversion 1; cbn; lia|].
    destruct (load (data b) (offset b)); [|discriminate]. cbn [offset size].
    destruct (offset b + 1 <? size b - 8); [inversion 1; cbn; lia|].
    destruct (size b <=? offset b + 1); inversion 1; cbn; lia.
  - unfold PopEnd. destruct (unsnoc (chain cl)) as [[prev b]|];
      [|inversion 1; lia].
    destruct (validSize cl =? 0); [inversion 1; lia|].
    destruct (load (data b) (size b - 1)); [|discriminate]. cbn [offset size].
    destruct (size b - 1 <=? offset b); inversion 1; cbn; lia.
  - unfold PopChunkFront. destruct (chain cl) as [|b next];
      [inversion 1; lia|].
    destruct (validSize cl =? 0); [inversion 1; lia|].
    destruct (size b - offset b <=? 0); [inversion 1; cbn; lia|].
    destruct (copy_valid zero b (size b - offset b)); [|discriminate].
    inversion 1; cbn; lia.
  - unfold PopChunkEnd. destruct (unsnoc (chain cl)) as [[prev b]|];
      [|inversion 1; lia].
    destruct (validSize cl =? 0); [inversion 1; lia|].
    destruct (size b - offset b <=? 0); [inversion 1; cbn; lia|].
    destruct (copy_valid zero b (size b - offset b)); [|discriminate].
    inversion 1; cbn; lia.
Qed.

(** ** The range of the integers *)

Lemma sum_size_app (a b : list (Chunk T)) :
  sum_size (a ++ b) = sum_size a + sum_size b.
Proof.
  unfold sum_size. induction a as [|c a IH]; cbn [app fold_right];
    [reflexivity|].
  rewrite IH. lia.
Qed.

Lemma sum_size_cons (c : Chunk T) cs :
  sum_size (c :: cs) = size c + sum_size cs.
Proof. reflexivity. Qed.

Lemma sum_size_one (c : Chunk T) : sum_size [c] = size c.
Proof. unfold sum_size. cbn [fold_right]. lia. Qed.

Lemma sum_size_nil : sum_size (@nil (Chunk T)) = 0.
Proof. reflexivity. Qed.

Lemma sum_size_bound (cs : list (Chunk T)) :
  Forall (fun c => 0 <= offset c < size c) cs ->
  0 <= sum_size cs /\ Forall (fun c => size c <= sum_size cs) cs.
Proof.
  induction 1 as [|c cs Hc _ [IH0 IH]].
  - rewrite sum_size_nil. split; [lia | constructor].
  - rewrite sum_size_cons. split; [lia|]. constructor; [lia|].
    eapply Forall_impl; [|exact IH]. cbn beta. intros; lia.
Qed.

(** An operation adds to the sizes of the chain at most what it pushes. *)
Lemma exec_sum_size o cl cl' r ws :
  Rep cl ws -> exec zero o cl = Some (cl', r) ->
  sum_size (chain cl') <= sum_size (chain cl) + pushed [o].
Proof.
  intros HR. pose proof (Rep_offsets HR) as Hoff.
  unfold pushed. destruct o as [d| | | |]; cbn [exec fold_right].
  - unfold Push. pose proof (len_nonneg d).
    destruct (len d =? 0); [inversion 1; lia|].
    destruct (unsnoc (chain cl)) as [[before t]|] eqn:E.
    + apply unsnoc_Some in E.
      destruct ((len d <=? 8) && (size t - offset t <? 16)).
      * unfold append_in_place. destruct (data t); [|discriminate].
        inversion 1; subst. cbn [chain].
        rewrite E, !sum_size_app, !sum_size_one. cbn [size]. lia.
      * inversion 1; subst. cbn [chain].
        rewrite sum_size_app, sum_size_one. cbn [size new_block]. lia.
    + inversion 1; subst. cbn [chain].
      rewrite sum_size_app, sum_size_one. cbn [size new_block]. lia.
  - unfold PopFront. destruct (chain cl) as [|b next] eqn:Ec;
      [inversion 1; subst; rewrite Ec; lia|].
    inversion Hoff as [|? ? Hb _]; subst.
    destruct (validSize cl =? 0); [inversion 1; subst; rewrite Ec; lia|].
    destruct (size b <=? offset b);
      [inversion 1; cbn [chain set_chain]; rewrite sum_size_cons; lia|].
    destruct (load (data b) (offset b)); [|discriminate]. cbn [offset size].
    destruct (offset b + 1 <? size b - 8);
      [inversion 1; cbn [chain]; rewrite !sum_size_cons; cbn [size]; lia|].
    destruct (size b <=? offset b + 1); inversion 1; cbn [chain set_chain];
      rewrite !sum_size_cons; cbn [size]; lia.
  - unfold PopEnd. destruct (unsnoc (chain cl)) as [[prev b]|] eqn:E;
      [|inversion 1; subst; lia].
    apply unsnoc_Some in E. rewrite E in *.
    apply Forall_app in Hoff. destruct Hoff as [_ Hb].
    inversion Hb as [|? ? Hb' _]; subst.
    destruct (validSize cl =? 0); [inversion 1; subst; rewrite E; lia|].
    destruct (load (data b) (size b - 1)); [|discriminate]. cbn [offset size].
    destruct (size b - 1 <=? offset b); inversion 1; cbn [chain set_chain];
      rewrite !sum_size_app, !sum_size_one; cbn [size]; lia.
  - unfold PopChunkFront. destruct (chain cl) as [|b next] eqn:Ec;
      [inversion 1; subst; rewrite Ec; lia|].
    inversion Hoff as [|? ? Hb _]; subst.
    destruct (validSize cl =? 0); [inversion 1; subst; rewrite Ec; lia|].
    destruct (size b - offset b <=? 0);
      [inversion 1; cbn [chain set_chain]; rewrite sum_size_cons; lia|].
    destruct (copy_valid zero b (size b - offset b)); [|discriminate].
    inversion 1; cbn [chain drop_counts]; rewrite sum_size_cons; lia.
  - unfold PopChunkEnd. destruct (unsnoc (chain cl)) as [[prev b]|] eqn:E;
      [|inversion 1; subst; lia].
    apply unsnoc_Some in E. rewrite E in *.
    apply Forall_app in Hoff. destruct Hoff as [_ Hb].
    inversion Hb as [|? ? Hb' _]; subst.
    destruct (validSize cl =? 0); [inversion 1; subst; rewrite E; lia|].
    destruct (size b - offset b <=? 0);
      [inversion 1; cbn [chain set_chain]; rewrite sum_size_app,
         sum_size_one; lia|].
    destruct (copy_valid zero b (size b - offset b)); [|discriminate].
    inversion 1; cbn [chain drop_counts]; rewrite sum_size_app, sum_size_one;
      lia.
Qed.

Lemma pushed_nonneg (ops : list (op T)) : 0 <= pushed ops.
Proof.
  induction ops as [|o ops IH]; [unfold pushed; simpl; lia|].
  rewrite pushed_cons. unfold pushed at 1. cbn [fold_right].
  destruct o as [d| | | |]; try lia. pose proof (len_nonneg d). lia.
Qed.

Lemma run_sum_size ops : forall cl cl' rs ws,
  Rep cl ws -> run zero ops cl = Some (cl', rs) ->
  sum_size (chain cl') <= sum_size (chain cl) + pushed ops.
Proof.
  induction ops as [|o ops IH]; intros cl cl' rs ws HR H.
  - cbn [run] in H. inversion H; subst. unfold pushed. cbn [fold_right]. lia.
  - cbn [run] in H.
    destruct (exec_Rep o HR) as (cl1 & r & ws1 & E1 & HR1 & _).
    rewrite E1 in H. cbn [fst snd] in H.
    destruct (run zero ops cl1) as [[cl2 rs2]|] eqn:E2; [|discriminate].
    inversion H; subst.
    pose proof (exec_sum_size o HR E1). pose proof (IH _ _ _ _ HR1 E2).
    rewrite pushed_cons. lia.
Qed.

(** X19.  Go's [int] has 64 bits.  In the state a run ends in, every stored
    integer is between zero and the number of elements the run pushed; the
    operations add at most 32 to such a value and subtract at most 8
    from it, so none of them leaves the range of [int] in a run that
    pushes fewer than [2^63 - 32] elements. *)
Lemma stored_integers_are_counts (ops : list (op T)) cl rs :
  run zero ops NewChunkPipe = Some (cl, rs) ->
  0 <= validSize cl <= pushed ops /\
  totalSize cl = validSize cl /\
  Forall (fun c => 0 <= offset c < size c /\ size c <= pushed ops)
         (chain cl).
Proof.
  intros H.
  destruct (run_Rep ops Rep_New) as (cl0 & rs0 & ws & E & HR & L).
  rewrite E in H. inversion H; subst cl0 rs0.
  pose proof (run_sum_size ops Rep_New E) as Hs.
  change (sum_size (chain NewChunkPipe)) with 0 in Hs.
  pose proof (Rep_offsets HR) as Hoff.
  destruct (sum_size_bound Hoff) as [_ Hb].
  pose proof HR as (Hch & Hv & Ht).
  split; [|split; [exact Ht|]].
  - rewrite Hv. pose proof (len_nonneg (concat ws)).
    rewrite (chain_rep_sum_valid Hch) in *.
    assert (sum_valid (chain cl) <= sum_size (chain cl)); [|lia].
    clear -Hoff. unfold sum_valid, sum_size.
    induction Hoff as [|c cs Hc _ IH]; cbn [fold_right]; lia.
  - rewrite Forall_forall in *. intros c Hc.
    specialize (Hoff c Hc). specialize (Hb c Hc). cbn beta in *. lia.
Qed.

(** * The properties *)

(** C1.  In every reachable state, for every index [0 <= i < validSize],
    [Get(i)] returns [(v, true)] with [v] the [i]-th element of what
    [Range()] returns in that state, and that sequence is the
    concatenation, from head to tail, of the valid windows
    [[offset, size)] of the chunks. *)
Theorem Get_agrees_with_Range cl i :
  reachable zero cl -> 0 <= i < validSize cl ->
  exists ws l v,
    Forall2 (fun c w => valid_window c = Some w) (chain cl) ws /\
    l = concat ws /\
    Range cl = Some l /\
    nth_error l (Z.to_nat i) = Some v /\
    Get zero i cl = Some (v, true).
Proof.
  intros Hr Hi. destruct (reachable_Rep Hr) as (ws & HR).
  destruct (Get_Rep HR Hi) as (v & Hv & Hg).
  exists ws, (concat ws), v.
  split; [|split; [reflexivity|split; [now apply Range_Rep|now split]]].
  destruct HR as (Hch & _). clear Hv Hg.
  induction Hch as [|c w cs ws' Hc _ IH]; [constructor|].
  constructor; [apply Hc | exact IH].
Qed.

(** C2, as the code has it.  In every reachable state [totalSize] is the
    sum of [size - offset] over the chunks of the chain: the slots
    already consumed from the front of a chunk that is still linked are
    not counted. *)
Theorem totalSize_is_sum_of_valid_counts cl :
  reachable zero cl -> totalSize cl = sum_valid (chain cl).
Proof.
  intros Hr. destruct (reachable_Rep Hr) as (ws & HR).
  rewrite <- (Rep_sum_valid HR). apply HR.
Qed.

(** C3.  Every sequence of operations runs to its end from the empty
    buffer, and then [validSize] is the number of elements pushed minus
    the number of elements the successful pops returned, a chunk pop
    counting for the length of the sequence it returned. *)
Theorem validSize_is_pushed_minus_popped (ops : list (op T)) :
  exists cl rs,
    run zero ops NewChunkPipe = Some (cl, rs) /\
    validSize cl = pushed ops - popped rs.
Proof.
  destruct (run_Rep ops Rep_New) as (cl & rs & ws & E & HR & L).
  exists cl, rs. split; [exact E|].
  destruct HR as (_ & Hv & _). rewrite Hv, L. change (len (concat [])) with 0.
  lia.
Qed.

(** C5.  On an empty buffer (no chunk, [validSize] zero) [PopFront] and
    [PopEnd] return the zero value and false, [PopChunkFront] and
    [PopChunkEnd] return the empty sequence and false, [Get] returns the
    zero value and false at every index; none of them faults and the pops
    leave the buffer as it was. *)
Theorem empty_buffer_reports_not_found cl :
  chain cl = [] -> validSize cl = 0 ->
  PopFront zero cl = Some (cl, (zero, false)) /\
  PopEnd zero cl = Some (cl, (zero, false)) /\
  PopChunkFront zero cl = Some (cl, ([], false)) /\
  PopChunkEnd zero cl = Some (cl, ([], false)) /\
  forall i, Get zero i cl = Some (zero, false).
Proof.
  intros Hc Hv.
  split; [now apply PopFront_empty|].
  split; [now apply PopEnd_empty|].
  split; [now apply PopChunkFront_empty|].
  split; [now apply PopChunkEnd_empty|].
  intros i. apply Get_out_of_range. lia.
Qed.

(** C6.  In every reachable state with logical sequence [l], for every
    predicate [fn], a closure whose answers may depend on its earlier
    calls: if [fn] answers true at each of its first [j] calls, made on
    the first [j] elements of [l], and false at the next one, then
    [RangeValues(fn)] calls [fn] exactly [j + 1] times, on the first
    [j + 1] elements of [l] in their order, wherever the chunk and the
    16-element batch boundaries fall. *)
Theorem RangeValues_stops_at_first_false (fn : closure T) cl l j v :
  reachable zero cl -> Range cl = Some l ->
  (forall i x, (i < j)%nat -> nth_error l i = Some x ->
               fn (firstn i l) x = true) ->
  nth_error l j = Some v -> fn (firstn j l) v = false ->
  exists calls,
    RangeValues fn cl = Some calls /\
    calls = firstn (S j) l /\
    length calls = S j.
Proof.
  intros Hr Hl Hp Hv Hf. destruct (reachable_Rep Hr) as (ws & HR).
  rewrite (Range_Rep HR) in Hl. inversion Hl; subst l.
  exists (firstn (S j) (concat ws)).
  split; [|split; [reflexivity|]].
  - rewrite (RangeValues_Rep fn HR). f_equal.
    apply (@visited_first_false fn (concat ws) [] j v).
    + apply passes_firstn. exact Hp.
    + exact Hv.
    + exact Hf.
  - apply firstn_length_le.
    assert (j < length (concat ws))%nat; [|lia].
    apply nth_error_Some. congruence.
Qed.


(** C8, as the code has it.  [Push] links chunks without inserting any
    node: no operation calls [insertBlockToTree] or changes [root], and in
    every reachable state the tree is empty, whatever the number of
    chunks in the chain. *)
Theorem index_tree_is_never_built cl :
  reachable zero cl ->
  root cl = Nil /\ nodes (root cl) = 0%nat /\
  forall o cl' r, exec zero o cl = Some (cl', r) -> root cl' = Nil.
Proof.
  intros Hr. pose proof (reachable_root Hr) as E.
  split; [exact E|]. split; [now rewrite E|].
  intros o cl' r H. rewrite (exec_root _ _ H). exact E.
Qed.

(** C9.  In every reachable state [totalSize = validSize], and every
    operation moves both counters by the same amount. *)
Theorem totalSize_equals_validSize cl :
  reachable zero cl ->
  totalSize cl = validSize cl /\
  forall o cl' r,
    exec zero o cl = Some (cl', r) ->
    totalSize cl' - totalSize cl = validSize cl' - validSize cl.
Proof.
  intros Hr. destruct (reachable_Rep Hr) as (ws & HR).
  split; [apply HR|]. intros o cl' r. apply exec_same_delta.
Qed.

(** C10.  In every reachable state every chunk of the chain has
    [0 <= offset < size].  So [PopFront], [PopChunkFront] and
    [PopChunkEnd] report not-found on an empty chain only, never through
    their empty-chunk branch, and the cell [size - 1] that [PopEnd] reads
    from the tail chunk is inside its valid window and holds a value. *)
Theorem chunks_are_never_empty cl :
  reachable zero cl ->
  Forall (fun c => 0 <= offset c < size c) (chain cl) /\
  (forall cl' v, PopFront zero cl = Some (cl', (v, false)) -> chain cl = []) /\
  (forall cl' vs,
     PopChunkFront zero cl = Some (cl', (vs, false)) -> chain cl = []) /\
  (forall cl' vs,
     PopChunkEnd zero cl = Some (cl', (vs, false)) -> chain cl = []) /\
  (forall before t,
     chain cl = before ++ [t] ->
     offset t <= size t - 1 < size t /\
     exists v, load (data t) (size t - 1) = Some v).
Proof.
  intros Hr. destruct (reachable_Rep Hr) as (ws & HR).
  split; [now apply (Rep_offsets HR)|].
  split; [|split; [|split]].
  - intros cl' v H. destruct (concat ws) as [|x l] eqn:E.
    + now apply (Rep_chain_nil HR).
    + destruct (PopFront_Rep HR E) as (cl1 & ws1 & E1 & _).
      rewrite E1 in H. discriminate.
  - intros cl' vs H. destruct ws as [|w ws].
    + now apply (Rep_chain_nil HR).
    + destruct (PopChunkFront_Rep HR) as (cl1 & E1 & _).
      rewrite E1 in H. discriminate.
  - intros cl' vs H. destruct ws as [|w0 ws0].
    + now apply (Rep_chain_nil HR).
    + destruct (@exists_last _ (w0 :: ws0)) as (ws' & w & El);
        [discriminate|].
      rewrite El in HR.
      destruct (PopChunkEnd_Rep _ _ HR) as (cl1 & E1 & _).
      rewrite E1 in H. discriminate.
  - intros before t E. destruct HR as (Hch & _). rewrite E in Hch.
    apply chain_rep_last in Hch. destruct Hch as (ws' & w & _ & _ & Hc).
    pose proof Hc as (H0 & H1 & _). split; [lia|].
    destruct (@exists_last _ w) as (w' & v & ->).
    { intros ->. apply chunk_rep_pos in Hc. unfold len in Hc; simpl in Hc.
      lia. }
    exists v. apply (chunk_rep_back _ _ Hc).
Qed.

End Proofs.

(** * The properties on the sample runs *)

(** C4, at an input on which the code fails.  The array [a] holds 0 to
    19.  [Push(a[10:20])], [Push(a[0:10])] and [Push([]int{-1})] push three
    slices with no cell in common; the elements pushed are 10 to 19, then
    0 to 9, then -1.  The third push takes the fast path on the tail
    chunk, whose slice is [a[0:10]], and stores -1 in the cell after it,
    which is [a[10]], the first cell of the head chunk.  [PopFront] then
    returns -1 where the first element pushed was 10, and so does
    [Get(0)]. *)
Theorem fast_path_overwrites_the_oldest_element :
  three_disjoint_pushes = Some after_three_pushes /\
  map (fun c => (Shared.data c, Shared.size c, Shared.offset c))
      (Shared.chain (snd after_three_pushes)) = [(10, 10, 0); (0, 11, 0)] /\
  two_arrays 10 = Some 10 /\
  fst after_three_pushes 10 = Some (-1) /\
  (exists st', Shared.PopFront 0 after_three_pushes =
               Some (st', (-1, true))) /\
  Shared.Get 0 0 after_three_pushes = Some (-1, true).
Proof.
  split; [reflexivity|]. split; [reflexivity|]. split; [reflexivity|].
  split; [reflexivity|]. split; [eexists; reflexivity | reflexivity].
Qed.

(** The scenarios of the specification. *)
Example two_pushes_then_Range_and_Get :
  let cl := state_after [OpPush [1; 2; 3]; OpPush [4; 5]] in
  Range cl = Some [1; 2; 3; 4; 5] /\
  Get 0 3 cl = Some (4, true) /\
  Get 0 10 cl = Some (0, false).
Proof. repeat split. Qed.

Example pops_from_both_ends :
  exists cl,
    run 0 [OpPush [1; 2; 3; 4; 5]; OpPopFront; OpPopFront; OpPopEnd]
        NewChunkPipe =
    Some (cl, [RPush; RValue 1 true; RValue 2 true; RValue 5 true]) /\
    Range cl = Some [3; 4].
Proof. eexists. split; reflexivity. Qed.

Example chunk_pop_empties_the_buffer :
  exists cl,
    run 0 [OpPush [1; 2; 3]; OpPopChunkFront; OpPopFront] NewChunkPipe =
    Some (cl, [RPush; RChunk [1; 2; 3] true; RValue 0 false]) /\
    chain cl = [] /\ validSize cl = 0 /\ totalSize cl = 0.
Proof. eexists. split; [reflexivity|]. repeat split. Qed.

Lemma state_after_reachable ops : reachable 0 (state_after ops).
Proof.
  destruct (run_Rep 0 ops (Rep_New Z)) as (cl & rs & ws & E & _).
  unfold state_after. rewrite E. now exists ops, rs.
Qed.

Lemma Get_agrees_with_Range_witness :
  reachable 0 sample /\ 0 <= 3 < validSize sample /\
  exists ws l v,
    Forall2 (fun c w => valid_window c = Some w) (chain sample) ws /\
    l = concat ws /\
    Range sample = Some l /\
    nth_error l (Z.to_nat 3) = Some v /\
    Get 0 3 sample = Some (v, true).
Proof.
  assert (Hr : reachable 0 sample) by apply state_after_reachable.
  assert (Hi : 0 <= 3 < validSize sample) by (vm_compute; split; congruence).
  split; [exact Hr|]. split; [exact Hi|].
  exact (@Get_agrees_with_Range Z 0 sample 3 Hr Hi).
Defined.

(** C2 as stated fails: after [Push [1; 2]] and one [PopFront] the only
    chunk has [size = 2] and [offset = 1], and [totalSize] is 1. *)
Lemma totalSize_is_not_sum_of_sizes :
  reachable 0 popped_once /\
  map (fun c => (size c, offset c)) (chain popped_once) = [(2, 1)] /\
  sum_size (chain popped_once) = 2 /\
  totalSize popped_once = 1 /\
  totalSize popped_once <> sum_size (chain popped_once).
Proof.
  split; [apply state_after_reachable|].
  repeat split; try reflexivity. vm_compute. discriminate.
Qed.

Lemma totalSize_is_sum_of_valid_counts_witness :
  reachable 0 popped_once /\
  totalSize popped_once = sum_valid (chain popped_once).
Proof.
  assert (Hr : reachable 0 popped_once) by apply state_after_reachable.
  split; [exact Hr|].
  exact (@totalSize_is_sum_of_valid_counts Z 0 popped_once Hr).
Defined.

Lemma empty_buffer_reports_not_found_witness :
  chain (@NewChunkPipe Z) = [] /\ validSize (@NewChunkPipe Z) = 0 /\
  PopFront 0 NewChunkPipe = Some (NewChunkPipe, (0, false)) /\
  PopEnd 0 NewChunkPipe = Some (NewChunkPipe, (0, false)) /\
  PopChunkFront 0 NewChunkPipe = Some (NewChunkPipe, ([], false)) /\
  PopChunkEnd 0 NewChunkPipe = Some (NewChunkPipe, ([], false)) /\
  forall i, Get 0 i NewChunkPipe = Some (0, false).
Proof.
  split; [reflexivity|]. split; [reflexivity|].
  exact (@empty_buffer_reports_not_found Z 0 NewChunkPipe eq_refl eq_refl).
Defined.

Lemma RangeValues_stops_at_first_false_witness :
  reachable 0 sample /\ Range sample = Some sample_elements /\
  (forall i x, (i < 22)%nat -> nth_error sample_elements i = Some x ->
               at_most 22 (firstn i sample_elements) x = true) /\
  nth_error sample_elements 22 = Some 24 /\
  at_most 22 (firstn 22 sample_elements) 24 = false /\
  exists calls,
    RangeValues (at_most 22) sample = Some calls /\
    calls = firstn 23 sample_elements /\
    length calls = 23%nat.
Proof.
  assert (Hr : reachable 0 sample) by apply state_after_reachable.
  assert (Hl : Range sample = Some sample_elements) by reflexivity.
  assert (Hp : forall i x, (i < 22)%nat ->
                 nth_error sample_elements i = Some x ->
                 at_most 22 (firstn i sample_elements) x = true).
  { intros i x Hi _. unfold at_most. apply Nat.ltb_lt.
    rewrite length_firstn. lia. }
  split; [exact Hr|]. split; [exact Hl|]. split; [exact Hp|].
  split; [reflexivity|]. split; [reflexivity|].
  exact (@RangeValues_stops_at_first_false Z 0 (at_most 22) sample
           sample_elements 22%nat 24 Hr Hl Hp eq_refl eq_refl).
Defined.

(** A closure that stops at its second call is called exactly twice, on
    equal elements too, and a predicate on the element alone is called
    once when the first element fails it. *)
Example RangeValues_with_a_counting_closure :
  RangeValues (at_most 1) sevens = Some [7; 7] /\
  RangeValues (stateless (fun x => x <? 7)) sevens = Some [7] /\
  RangeValues (stateless (fun x => x <? 24)) sample =
    Some (firstn 23 sample_elements).
Proof. repeat split. Qed.


(** C8 as stated fails: a bulk push of nine elements on the empty buffer
    links one chunk and leaves the tree empty. *)
Lemma Push_links_a_chunk_and_no_node :
  Push [1; 2; 3; 4; 5; 6; 7; 8; 9] NewChunkPipe = Some bulk_once /\
  length (chain (@NewChunkPipe Z)) = 0%nat /\
  length (chain bulk_once) = 1%nat /\
  root bulk_once = Nil /\
  nodes (root bulk_once) <> length (chain bulk_once).
Proof.
  repeat split; try reflexivity. vm_compute. discriminate.
Qed.

Lemma index_tree_is_never_built_witness :
  reachable 0 sample /\
  root sample = Nil /\ nodes (root sample) = 0%nat /\
  forall o cl' r, exec 0 o sample = Some (cl', r) -> root cl' = Nil.
Proof.
  assert (Hr : reachable 0 sample) by apply state_after_reachable.
  split; [exact Hr|]. exact (@index_tree_is_never_built Z 0 sample Hr).
Defined.

Lemma totalSize_equals_validSize_witness :
  reachable 0 sample /\
  totalSize sample = validSize sample /\
  forall o cl' r,
    exec 0 o sample = Some (cl', r) ->
    totalSize cl' - totalSize sample = validSize cl' - validSize sample.
Proof.
  assert (Hr : reachable 0 sample) by apply state_after_reachable.
  split; [exact Hr|]. exact (@totalSize_equals_validSize Z 0 sample Hr).
Defined.

Lemma chunks_are_never_empty_witness :
  reachable 0 sample /\
  Forall (fun c => 0 <= offset c < size c) (chain sample) /\
  (forall cl' v, PopFront 0 sample = Some (cl', (v, false)) ->
                 chain sample = []) /\
  (forall cl' vs, PopChunkFront 0 sample = Some (cl', (vs, false)) ->
                  chain sample = []) /\
  (forall cl' vs, PopChunkEnd 0 sample = Some (cl', (vs, false)) ->
                  chain sample = []) /\
  (forall before t,
     chain sample = before ++ [t] ->
     offset t <= size t - 1 < size t /\
     exists v, load (data t) (size t - 1) = Some v).
Proof.
  assert (Hr : reachable 0 sample) by apply state_after_reachable.
  split; [exact Hr|]. exact (@chunks_are_never_empty Z 0 sample Hr).
Defined.

(** * Further properties of the operations *)

Section Further.

Variable T : Type.
Variable zero : T.

Implicit Types (b : block T) (c : Chunk T) (cl : ChunkPipe T)
  (w d l : list T) (ws : list (list T)).

Lemma Rep_Range cl ws l : Rep cl ws -> Range cl = Some l -> l = concat ws.
Proof. intros HR H. rewrite (Range_Rep HR) in H. now inversion H. Qed.

Lemma Rep_validSize cl ws : Rep cl ws -> validSize cl = len (concat ws).
Proof. intros (_ & H & _). exact H. Qed.

(** ** One operation and the logical sequence *)

Lemma Push_bulk_Rep cl ws d :
  Rep cl ws -> 8 < len d ->
  exists cl', Push d cl = Some cl' /\ Rep cl' (ws ++ [d]).
Proof.
  intros (Hch & Hv & Ht) Hd. unfold Push.
  destruct (Z.eqb_spec (len d) 0); [lia|].
  destruct (Z.leb_spec (len d) 8); [lia|]. cbn [andb].
  assert (Hbulk : Rep {| chain := chain cl ++ [new_block d];
                         totalSize := totalSize cl + len d;
                         validSize := validSize cl + len d;
                         root := root cl |} (ws ++ [d])).
  { unfold Rep; cbn [chain validSize totalSize]. split; [|split].
    - apply chain_rep_snoc; [assumption|]. apply new_block_rep.
      intros ->. change (len []) with 0 in Hd. lia.
    - rewrite concat_snoc, len_app. lia.
    - lia. }
  destruct (unsnoc (chain cl)) as [[before t]|]; eexists; split;
    try reflexivity; exact Hbulk.
Qed.

(** X1.  In a reachable state a push of more than 8 elements links one
    new chunk over the pushed slice and writes no cell: it appends [data]
    to the logical sequence, and [validSize] grows by [len(data)]. *)
Theorem bulk_Push_appends_to_Range cl d l :
  reachable zero cl -> Range cl = Some l -> 8 < len d ->
  exists cl',
    Push d cl = Some cl' /\
    chain cl' = chain cl ++ [new_block d] /\
    Range cl' = Some (l ++ d) /\
    validSize cl' = validSize cl + len d.
Proof.
  intros Hr Hl Hd. destruct (reachable_Rep Hr) as (ws & HR).
  rewrite (Rep_Range HR Hl).
  destruct (@Push_bulk_Rep cl ws d HR Hd) as (cl' & E & HR').
  exists cl'. split; [exact E|].
  split.
  { unfold Push in E. destruct (Z.eqb_spec (len d) 0); [lia|].
    destruct (Z.leb_spec (len d) 8); [lia|]. cbn [andb] in E.
    destruct (unsnoc (chain cl)) as [[before t]|]; now inversion E. }
  rewrite <- concat_snoc. split; [now apply Range_Rep|].
  rewrite (Rep_validSize HR'), (Rep_validSize HR), concat_snoc.
  apply len_app.
Qed.

(** X2.  In a reachable state whose logical sequence is [v :: l],
    [PopFront] returns [(v, true)] and leaves the sequence [l];
    [validSize] drops by one. *)
Theorem PopFront_takes_the_first_element cl v l :
  reachable zero cl -> Range cl = Some (v :: l) ->
  exists cl',
    PopFront zero cl = Some (cl', (v, true)) /\
    Range cl' = Some l /\
    validSize cl' = validSize cl - 1.
Proof.
  intros Hr Hl. destruct (reachable_Rep Hr) as (ws & HR).
  pose proof (Rep_Range HR Hl) as E. symmetry in E.
  destruct (PopFront_Rep zero HR E) as (cl' & ws' & Ep & HR' & Ec).
  exists cl'. split; [exact Ep|]. rewrite <- Ec.
  split; [now apply Range_Rep|].
  rewrite (Rep_validSize HR'), (Rep_validSize HR), E, Ec, len_cons. lia.
Qed.

(** X3.  In a reachable state whose logical sequence is [l ++ [v]],
    [PopEnd] returns [(v, true)] and leaves the sequence [l];
    [validSize] drops by one. *)
Theorem PopEnd_takes_the_last_element cl v l :
  reachable zero cl -> Range cl = Some (l ++ [v]) ->
  exists cl',
    PopEnd zero cl = Some (cl', (v, true)) /\
    Range cl' = Some l /\
    validSize cl' = validSize cl - 1.
Proof.
  intros Hr Hl. destruct (reachable_Rep Hr) as (ws & HR).
  pose proof (Rep_Range HR Hl) as E. symmetry in E.
  destruct (PopEnd_Rep zero v l HR E) as (cl' & ws' & Ep & HR' & Ec).
  exists cl'. split; [exact Ep|]. rewrite <- Ec.
  split; [now apply Range_Rep|].
  rewrite (Rep_validSize HR'), (Rep_validSize HR), E, Ec, len_app.
  change (len [v]) with 1. lia.
Qed.

(** ** Chunk pops *)

Lemma PopChunkFront_chain cl cl' w :
  PopChunkFront zero cl = Some (cl', (w, true)) ->
  exists c, chain cl = c :: chain cl'.
Proof.
  unfold PopChunkFront. destruct (chain cl) as [|c next]; [discriminate|].
  destruct (validSize cl =? 0); [discriminate|].
  destruct (size c - offset c <=? 0); [discriminate|].
  destruct (copy_valid zero c (size c - offset c)); [|discriminate].
  inversion 1; subst. now exists c.
Qed.

Lemma PopChunkEnd_chain cl cl' w :
  PopChunkEnd zero cl = Some (cl', (w, true)) ->
  exists c, chain cl = chain cl' ++ [c].
Proof.
  unfold PopChunkEnd.
  destruct (unsnoc (chain cl)) as [[prev c]|] eqn:E; [|discriminate].
  apply unsnoc_Some in E.
  destruct (validSize cl =? 0); [discriminate|].
  destruct (size c - offset c <=? 0); [discriminate|].
  destruct (copy_valid zero c (size c - offset c)); [|discriminate].
  inversion 1; subst. now exists c.
Qed.

(** X4.  In a reachable state with head chunk [c], [PopChunkFront] returns
    the whole valid window of [c], which is not empty and is the front of
    the logical sequence, unlinks [c] and nothing else, and takes the
    length of the window off [validSize]. *)
Theorem PopChunkFront_takes_the_head_window cl c rest :
  reachable zero cl -> chain cl = c :: rest ->
  exists cl' w l',
    PopChunkFront zero cl = Some (cl', (w, true)) /\
    valid_window c = Some w /\ w <> [] /\
    chain cl' = rest /\
    Range cl = Some (w ++ l') /\ Range cl' = Some l' /\
    validSize cl' = validSize cl - len w.
Proof.
  intros Hr Hc. destruct (reachable_Rep Hr) as (ws & HR).
  pose proof HR as (Hch & _). rewrite Hc in Hch.
  inversion Hch as [|? w ? ws' Hw Hws]; subst.
  destruct (PopChunkFront_Rep zero HR) as (cl' & E & HR').
  exists cl', w, (concat ws').
  split; [exact E|]. split; [apply Hw|].
  split.
  { intros ->. apply chunk_rep_pos in Hw. unfold len in Hw; simpl in Hw.
    lia. }
  split.
  { destruct (PopChunkFront_chain _ E) as (c' & Ec). rewrite Hc in Ec.
    now inversion Ec. }
  split; [apply (Range_Rep HR)|]. split; [apply (Range_Rep HR')|].
  rewrite (Rep_validSize HR'), (Rep_validSize HR). cbn [concat].
  rewrite len_app. lia.
Qed.

(** X5.  In a reachable state with tail chunk [t], [PopChunkEnd] returns
    the whole valid window of [t], which is not empty and is the end of
    the logical sequence, unlinks [t] and nothing else, and takes the
    length of the window off [validSize]. *)
Theorem PopChunkEnd_takes_the_tail_window cl before t :
  reachable zero cl -> chain cl = before ++ [t] ->
  exists cl' w l',
    PopChunkEnd zero cl = Some (cl', (w, true)) /\
    valid_window t = Some w /\ w <> [] /\
    chain cl' = before /\
    Range cl = Some (l' ++ w) /\ Range cl' = Some l' /\
    validSize cl' = validSize cl - len w.
Proof.
  intros Hr Hc. destruct (reachable_Rep Hr) as (ws & HR).
  pose proof HR as (Hch & _). rewrite Hc in Hch.
  apply chain_rep_last in Hch. destruct Hch as (ws' & w & -> & Hws & Hw).
  destruct (PopChunkEnd_Rep zero w ws' HR) as (cl' & E & HR').
  exists cl', w, (concat ws').
  split; [exact E|]. split; [apply Hw|].
  split.
  { intros ->. apply chunk_rep_pos in Hw. unfold len in Hw; simpl in Hw.
    lia. }
  split.
  { destruct (PopChunkEnd_chain _ E) as (c' & Ec). rewrite Hc in Ec.
    now apply app_inj_tail in Ec. }
  split; [rewrite <- concat_snoc; apply (Range_Rep HR)|].
  split; [apply (Range_Rep HR')|].
  rewrite (Rep_validSize HR'), (Rep_validSize HR), concat_snoc, len_app. lia.
Qed.

(** ** Bulk pushes keep their boundaries, small pushes do not *)

Lemma run_bulk_pushes ds : forall cl ws,
  Forall (fun d => 8 < len d) ds -> Rep cl ws ->
  exists cl',
    run zero (map (@OpPush T) ds) cl = Some (cl', repeat RPush (length ds)) /\
    Rep cl' (ws ++ ds).
Proof.
  induction ds as [|d ds IH]; intros cl ws Hds HR; cbn [map run].
  - exists cl. rewrite app_nil_r. now split.
  - inversion Hds as [|? ? Hd Hds']; subst. cbn [exec].
    destruct (@Push_bulk_Rep cl ws d HR Hd) as (cl1 & -> & HR1).
    cbn [fst snd].
    destruct (IH cl1 (ws ++ [d]) Hds' HR1) as (cl2 & -> & HR2).
    cbn [fst snd]. exists cl2. split; [reflexivity|].
    now rewrite <- app_assoc in HR2.
Qed.

Lemma run_pop_chunks_front n : forall cl ws,
  Rep cl ws ->
  exists cl',
    run zero (repeat OpPopChunkFront n) cl =
      Some (cl', map (fun w => RChunk w true) (firstn n ws) ++
                 repeat (RChunk [] false) (n - length ws)) /\
    Rep cl' (skipn n ws).
Proof.
  induction n as [|n IH]; intros cl ws HR.
  - exists cl. now split.
  - cbn [repeat run exec]. destruct ws as [|w ws].
    + rewrite (PopChunkFront_empty zero cl (Rep_chain_nil HR eq_refl)).
      cbn [fst snd]. destruct (IH cl [] HR) as (cl' & -> & HR').
      cbn [fst snd]. exists cl'. rewrite firstn_nil in *.
      rewrite skipn_nil in *. cbn [length map app] in *.
      rewrite Nat.sub_0_r in *. now split.
    + destruct (PopChunkFront_Rep zero HR) as (cl1 & -> & HR1).
      cbn [fst snd]. destruct (IH cl1 ws HR1) as (cl' & -> & HR').
      cbn [fst snd]. exists cl'. now split.
Qed.

Lemma run_pop_chunks_end n : forall cl ws,
  Rep cl ws ->
  exists cl',
    run zero (repeat OpPopChunkEnd n) cl =
      Some (cl', map (fun w => RChunk w true) (firstn n (rev ws)) ++
                 repeat (RChunk [] false) (n - length ws)) /\
    Rep cl' (rev (skipn n (rev ws))).
Proof.
  induction n as [|n IH]; intros cl ws HR.
  - exists cl. cbn [skipn]. rewrite rev_involutive. now split.
  - cbn [repeat run exec]. destruct ws as [|w0 ws0] eqn:Ews.
    + rewrite (PopChunkEnd_empty zero cl (Rep_chain_nil HR eq_refl)).
      cbn [fst snd]. destruct (IH cl [] HR) as (cl' & -> & HR').
      cbn [fst snd]. exists cl'. cbn [rev] in *. rewrite firstn_nil in *.
      rewrite skipn_nil in *. cbn [length map app rev] in *.
      rewrite Nat.sub_0_r in *. now split.
    + destruct (@exists_last _ (w0 :: ws0)) as (ws' & w & El);
        [discriminate|].
      rewrite El in *.
      destruct (PopChunkEnd_Rep zero w ws' HR) as (cl1 & -> & HR1).
      cbn [fst snd]. destruct (IH cl1 ws' HR1) as (cl' & -> & HR').
      cbn [fst snd]. exists cl'.
      rewrite rev_app_distr, length_app. cbn [rev app firstn skipn map length].
      replace (S n - (length ws' + 1))%nat with (n - length ws')%nat by lia.
      now split.
Qed.

(** X6.  Pushes of more than 8 elements each, on a new buffer, make one
    chunk per push: as many calls of [PopChunkFront] return the pushed
    slices one by one in the order of the pushes, as many calls of
    [PopChunkEnd] return them in the reverse order, and either way the
    chain is empty afterwards. *)
Theorem bulk_pushes_come_back_chunk_by_chunk (ds : list (list T)) :
  Forall (fun d => 8 < len d) ds ->
  let found := map (fun d => RChunk d true) in
  (exists cl,
     run zero (map (@OpPush T) ds ++ repeat OpPopChunkFront (length ds))
         NewChunkPipe =
     Some (cl, repeat RPush (length ds) ++ found ds) /\
     chain cl = [] /\ validSize cl = 0) /\
  (exists cl,
     run zero (map (@OpPush T) ds ++ repeat OpPopChunkEnd (length ds))
         NewChunkPipe =
     Some (cl, repeat RPush (length ds) ++ found (rev ds)) /\
     chain cl = [] /\ validSize cl = 0).
Proof.
  intros Hds found.
  destruct (run_bulk_pushes Hds (Rep_New T)) as (cl1 & E1 & HR1).
  cbn [app] in HR1.
  destruct (run_pop_chunks_front (length ds) HR1) as (cl2 & E2 & HR2).
  destruct (run_pop_chunks_end (length ds) HR1) as (cl3 & E3 & HR3).
  rewrite firstn_all, Nat.sub_diag, app_nil_r in E2.
  replace (firstn (length ds) (rev ds)) with (rev ds) in E3
    by (rewrite <- (length_rev ds); symmetry; apply firstn_all).
  rewrite Nat.sub_diag, app_nil_r in E3.
  rewrite skipn_all in HR2.
  replace (skipn (length ds) (rev ds)) with (@nil (list T)) in HR3
    by (rewrite <- (length_rev ds); symmetry; apply skipn_all).
  cbn [rev] in HR3.
  split; [exists cl2 | exists cl3]; rewrite run_app, E1.
  - rewrite E2. split; [reflexivity|].
    split; [now apply (Rep_chain_nil HR2) | now rewrite (Rep_validSize HR2)].
  - rewrite E3. split; [reflexivity|].
    split; [now apply (Rep_chain_nil HR3) | now rewrite (Rep_validSize HR3)].
Qed.

(** X22.  After pushes of more than 8 elements each on a new buffer, no
    cell has been written: [n] calls of [PopFront] return the pushed
    elements in the order they were pushed, [n] calls of [PopEnd] return
    them in the reverse order, from the last element of the last push, and
    calls made once the buffer is drained report not-found. *)
Theorem bulk_pushes_are_FIFO_and_LIFO (ds : list (list T)) (n : nat) :
  Forall (fun d => 8 < len d) ds ->
  let all := concat ds in
  let found := map (fun v => RValue v true) in
  let missing := repeat (RValue zero false) (n - length all) in
  (exists cl,
     run zero (map (@OpPush T) ds ++ repeat OpPopFront n) NewChunkPipe =
     Some (cl, repeat RPush (length ds) ++
               found (firstn n all) ++ missing)) /\
  (exists cl,
     run zero (map (@OpPush T) ds ++ repeat OpPopEnd n) NewChunkPipe =
     Some (cl, repeat RPush (length ds) ++
               found (firstn n (rev all)) ++ missing)).
Proof.
  intros Hds all found missing.
  destruct (run_bulk_pushes Hds (Rep_New T)) as (cl1 & E & HR).
  cbn [app] in HR.
  destruct (run_pop_front zero n HR) as (cl2 & E2).
  destruct (run_pop_end zero n HR) as (cl3 & E3).
  split; [exists cl2 | exists cl3]; rewrite run_app, E.
  - now rewrite E2.
  - now rewrite E3.
Qed.


(** ** Get, Range and the counters *)

(** X8.  In a reachable state [Get(i)] finds an element exactly when
    [0 <= i < validSize]; at any other index it returns the zero value
    and false. *)
Theorem Get_finds_exactly_the_valid_indices cl i :
  reachable zero cl ->
  ((exists v, Get zero i cl = Some (v, true)) <-> 0 <= i < validSize cl) /\
  (~ 0 <= i < validSize cl -> Get zero i cl = Some (zero, false)).
Proof.
  intros Hr. destruct (reachable_Rep Hr) as (ws & HR).
  assert (Hout : ~ 0 <= i < validSize cl -> Get zero i cl = Some (zero, false))
    by (intros H; apply Get_out_of_range; lia).
  split; [|exact Hout]. split.
  - intros (v & Hv).
    destruct (Z_lt_dec i 0) as [Hn|Hn];
      [rewrite Hout in Hv by lia; discriminate|].
    destruct (Z_lt_dec i (validSize cl)) as [Hm|Hm]; [lia|].
    rewrite Hout in Hv by lia. discriminate.
  - intros Hi. destruct (Get_Rep zero HR Hi) as (v & _ & Hg). now exists v.
Qed.

(** X9.  A push of more than 8 elements leaves every element where it
    was and puts the new ones after them: [Get(i)] is unchanged for
    [0 <= i < validSize], and [Get(validSize + j)] is [data[j]], with
    [validSize] the count before the push. *)
Theorem Get_after_bulk_Push cl d cl' :
  reachable zero cl -> 8 < len d -> Push d cl = Some cl' ->
  (forall i, 0 <= i < validSize cl -> Get zero i cl' = Get zero i cl) /\
  (forall j, 0 <= j < len d ->
     exists v, nth_error d (Z.to_nat j) = Some v /\
               Get zero (validSize cl + j) cl' = Some (v, true)).
Proof.
  intros Hr Hd Hp. destruct (reachable_Rep Hr) as (ws & HR).
  destruct (@Push_bulk_Rep cl ws d HR Hd) as (cl1 & E & HR').
  rewrite E in Hp. inversion Hp; subst cl1. clear Hp E.
  pose proof (Rep_validSize HR) as Hv. pose proof (Rep_validSize HR') as Hv'.
  rewrite concat_snoc, len_app in Hv'.
  pose proof (len_nonneg (concat ws)).
  split.
  - intros i Hi.
    destruct (Get_Rep zero HR Hi) as (v & Hn & ->).
    destruct (@Get_Rep T zero cl' (ws ++ [d]) i HR') as (v' & Hn' & ->);
      [lia|].
    rewrite concat_snoc, nth_error_app1 in Hn' by (unfold len in Hv; lia).
    congruence.
  - intros j Hj.
    destruct (@Get_Rep T zero cl' (ws ++ [d]) (validSize cl + j) HR')
      as (v & Hn & Hg); [lia|].
    exists v. split; [|exact Hg].
    rewrite concat_snoc, nth_error_app2 in Hn by (unfold len in Hv; lia).
    rewrite <- Hn. f_equal. unfold len in Hv. lia.
Qed.

(** X10.  After a successful [PopFront] every index moves down by one:
    the value returned is what [Get(0)] gave, and [Get(i)] gives what
    [Get(i + 1)] gave, for every [i >= 0]. *)
Theorem Get_after_PopFront cl cl' v :
  reachable zero cl -> PopFront zero cl = Some (cl', (v, true)) ->
  Get zero 0 cl = Some (v, true) /\
  forall i, 0 <= i -> Get zero i cl' = Get zero (i + 1) cl.
Proof.
  intros Hr Hp. destruct (reachable_Rep Hr) as (ws & HR).
  destruct (concat ws) as [|v0 l] eqn:E.
  { rewrite (PopFront_empty zero cl (Rep_chain_nil HR E)) in Hp.
    discriminate. }
  destruct (PopFront_Rep zero HR E) as (cl1 & ws1 & E1 & HR1 & Ec).
  rewrite E1 in Hp. inversion Hp; subst cl1 v0. clear Hp.
  pose proof (Rep_validSize HR) as Hv. pose proof (Rep_validSize HR1) as Hv1.
  rewrite E, len_cons in Hv. rewrite Ec in Hv1. pose proof (len_nonneg l).
  split.
  - destruct (@Get_Rep T zero cl ws 0 HR) as (v' & Hn & ->); [lia|].
    rewrite E in Hn. cbn in Hn. congruence.
  - intros i Hi. destruct (Z_lt_dec i (len l)) as [Hlt|Hge].
    + destruct (@Get_Rep T zero cl' ws1 i HR1) as (a & Ha & ->); [lia|].
      destruct (@Get_Rep T zero cl ws (i + 1) HR) as (a' & Ha' & ->); [lia|].
      rewrite Ec in Ha. rewrite E in Ha'.
      replace (Z.to_nat (i + 1)) with (S (Z.to_nat i)) in Ha' by lia.
      cbn [nth_error] in Ha'. congruence.
    + rewrite !Get_out_of_range by lia. reflexivity.
Qed.

(** X11.  After a successful [PopEnd] the elements that remain keep their
    indices: [Get(i)] is unchanged for [0 <= i < validSize - 1], and the
    value returned is what [Get(validSize - 1)] gave. *)
Theorem Get_after_PopEnd cl cl' v :
  reachable zero cl -> PopEnd zero cl = Some (cl', (v, true)) ->
  Get zero (validSize cl - 1) cl = Some (v, true) /\
  forall i, 0 <= i < validSize cl - 1 -> Get zero i cl' = Get zero i cl.
Proof.
  intros Hr Hp. destruct (reachable_Rep Hr) as (ws & HR).
  destruct (concat ws) as [|x l0] eqn:E.
  { rewrite (PopEnd_empty zero cl (Rep_chain_nil HR E)) in Hp.
    discriminate. }
  destruct (@exists_last _ (x :: l0)) as (l & v0 & El); [discriminate|].
  rewrite El in E. clear El x l0.
  destruct (PopEnd_Rep zero v0 l HR E) as (cl1 & ws1 & E1 & HR1 & Ec).
  rewrite E1 in Hp. inversion Hp; subst cl1 v0. clear Hp.
  pose proof (Rep_validSize HR) as Hv. pose proof (Rep_validSize HR1) as Hv1.
  rewrite E, len_app in Hv. change (len [v]) with 1 in Hv.
  rewrite Ec in Hv1. pose proof (len_nonneg l).
  split.
  - destruct (@Get_Rep T zero cl ws (validSize cl - 1) HR)
      as (v' & Hn & ->); [lia|].
    rewrite E, nth_error_app2 in Hn by (unfold len in Hv; lia).
    replace (Z.to_nat (validSize cl - 1) - length l)%nat with 0%nat in Hn
      by (unfold len in Hv; lia).
    cbn in Hn. congruence.
  - intros i Hi.
    destruct (@Get_Rep T zero cl' ws1 i HR1) as (a & Ha & ->); [lia|].
    destruct (@Get_Rep T zero cl ws i HR) as (a' & Ha' & ->); [lia|].
    rewrite Ec in Ha.
    rewrite E, nth_error_app1 in Ha' by (unfold len in Hv; lia).
    congruence.
Qed.

(** X12.  In a reachable state the chain is empty exactly when
    [validSize] is zero: once every element has been popped no chunk is
    left linked, and both counters are zero. *)
Theorem drained_buffer_has_no_chunk cl :
  reachable zero cl ->
  (validSize cl = 0 <-> chain cl = []) /\
  (chain cl = [] -> totalSize cl = 0 /\ Range cl = Some []).
Proof.
  intros Hr. destruct (reachable_Rep Hr) as (ws & HR).
  pose proof HR as (Hch & Hv & Ht).
  assert (Hc : chain cl = [] -> validSize cl = 0).
  { intros E. rewrite E in Hch. inversion Hch; subst. exact Hv. }
  split; [split; [|exact Hc]|].
  - intros E. rewrite Hv in E. apply len_nil_iff in E.
    now apply (Rep_chain_nil HR).
  - intros E. specialize (Hc E). split; [lia|].
    unfold Range. now rewrite Hc.
Qed.

(** X13.  In a reachable state [Range] does not fault and returns
    exactly [validSize] elements. *)
Theorem Range_returns_validSize_elements cl :
  reachable zero cl ->
  exists l, Range cl = Some l /\ len l = validSize cl.
Proof.
  intros Hr. destruct (reachable_Rep Hr) as (ws & HR).
  exists (concat ws). split; [now apply Range_Rep|].
  symmetry. now apply Rep_validSize.
Qed.

(** X14.  For every predicate [fn], a closure whose answers may depend
    on its earlier calls, [RangeValues(fn)] behaves as a plain scan from the
    left of the logical sequence: it calls [fn] on the elements in order,
    up to and including the first call that answers false, and on all of
    them when no call does. *)
Theorem RangeValues_is_a_scan_from_the_left (fn : closure T) cl l :
  reachable zero cl -> Range cl = Some l ->
  RangeValues fn cl = Some (visited fn [] l) /\
  (passes fn [] l = true -> RangeValues fn cl = Some l).
Proof.
  intros Hr Hl. destruct (reachable_Rep Hr) as (ws & HR).
  rewrite (Rep_Range HR Hl).
  pose proof (RangeValues_Rep fn HR) as E. split; [exact E|].
  intros Hall. now rewrite E, visited_all.
Qed.

(** ** A push undone from the end *)

Lemma run_pop_end_suffix r : forall cl ws l,
  Rep cl ws -> concat ws = l ++ r ->
  exists cl' ws',
    run zero (repeat OpPopEnd (length r)) cl =
      Some (cl', map (fun v => RValue v true) (rev r)) /\
    Rep cl' ws' /\ concat ws' = l.
Proof.
  induction r as [|v r IH] using rev_ind; intros cl ws l HR E.
  - exists cl, ws. rewrite app_nil_r in E.
    split; [reflexivity|]. split; assumption.
  - rewrite app_assoc in E.
    destruct (PopEnd_Rep zero v (l ++ r) HR E) as (cl1 & ws1 & E1 & HR1 & Ec).
    destruct (IH cl1 ws1 l HR1 Ec) as (cl2 & ws2 & E2 & HR2 & Ec2).
    exists cl2, ws2. rewrite length_app, Nat.add_1_r, rev_app_distr.
    cbn [length repeat run exec rev app map]. rewrite E1. cbn [fst snd].
    rewrite E2. cbn [fst snd]. split; [reflexivity|]. split; assumption.
Qed.

(** X15.  In a reachable state, a push of more than 8 elements followed
    by as many calls of [PopEnd] as it had elements gives those elements
    back, last first, and leaves the logical sequence and [validSize] as
    they were before the push. *)
Theorem bulk_Push_then_PopEnd_restores cl d l :
  reachable zero cl -> Range cl = Some l -> 8 < len d ->
  exists cl',
    run zero (OpPush d :: repeat OpPopEnd (length d)) cl =
      Some (cl', RPush :: map (fun v => RValue v true) (rev d)) /\
    Range cl' = Some l /\
    validSize cl' = validSize cl.
Proof.
  intros Hr Hl Hd. destruct (reachable_Rep Hr) as (ws & HR).
  pose proof (Rep_Range HR Hl) as El. subst l.
  destruct (@Push_bulk_Rep cl ws d HR Hd) as (cl1 & E1 & HR1).
  destruct (run_pop_end_suffix d (concat ws) HR1 (concat_snoc ws d))
    as (cl2 & ws2 & E2 & HR2 & Ec2).
  exists cl2. cbn [run exec]. rewrite E1. cbn [fst snd]. rewrite E2.
  cbn [fst snd]. split; [reflexivity|]. rewrite <- Ec2.
  split; [now apply Range_Rep|].
  now rewrite (Rep_validSize HR2), (Rep_validSize HR), Ec2.
Qed.

(** ** RangeChunk *)

Lemma flush_app (buffer : list T) sent :
  flush buffer sent = sent ++ flush buffer [].
Proof.
  unfold flush. destruct (0 <? len buffer); [reflexivity|].
  now rewrite app_nil_r.
Qed.

Lemma flush_spec (buffer : list T) :
  len buffer <= buffer_cap ->
  concat (flush buffer []) = buffer /\
  Forall (fun x => x <> []) (flush buffer []) /\
  Forall (fun x => len x <= buffer_cap) (flush buffer []).
Proof.
  intros Hb. unfold flush. destruct (Z.ltb_spec 0 (len buffer)) as [Hp|Hz].
  - cbn [app concat]. rewrite app_nil_r. split; [reflexivity|].
    split; constructor; try constructor; try assumption.
    intros ->. change (len []) with 0 in Hp. lia.
  - pose proof (len_nonneg buffer).
    assert (buffer = []) by (apply len_nil_iff; lia). subst.
    split; [reflexivity|]. split; constructor.
Qed.

Lemma valid_data_rep c w :
  chunk_rep c w ->
  exists sl, unsafe_Slice (data c) (size c) = Some sl /\
             from_index sl (offset c) = Some w.
Proof.
  intros Hc. pose proof (copy_valid_rep zero Hc) as H.
  destruct (chunk_rep_data Hc) as (b & Hb & _).
  unfold copy_valid in H. rewrite Hb in H. rewrite Hb.
  destruct (unsafe_Slice (Some b) (size c)) as [sl|]; [|discriminate].
  now exists sl.
Qed.

Lemma chunk_loop_spec cs ws :
  Forall2 (@chunk_rep T) cs ws ->
  forall buffer sent,
    len buffer <= buffer_cap ->
    exists out,
      chunk_loop cs buffer sent = Some (sent ++ out) /\
      concat out = buffer ++ concat ws /\
      Forall (fun x => x <> []) out /\
      Forall (fun x => len x <= buffer_cap \/ In x ws) out.
Proof.
  induction 1 as [|c w cs ws Hc _ IH]; intros buffer sent Hb;
    cbn [chunk_loop].
  - destruct (@flush_spec buffer Hb) as (H1 & H2 & H3).
    exists (flush buffer []). rewrite (flush_app buffer sent).
    split; [reflexivity|]. cbn [concat]. rewrite app_nil_r.
    split; [exact H1|]. split; [exact H2|].
    eapply Forall_impl; [|exact H3]. cbn beta. intros; now left.
  - pose proof Hc as (H0 & H1 & _).
    destruct (Z.ltb_spec (offset c) (size c)); [|lia].
    destruct (valid_data_rep Hc) as (sl & -> & ->).
    destruct (Z.leb_spec (len buffer + len w) buffer_cap) as [Hfit|Hbig].
    + destruct (IH (buffer ++ w) sent) as (out & E & Hcat & Hne & Hsz).
      { now rewrite len_app. }
      exists out. split; [exact E|]. cbn [concat].
      split; [now rewrite Hcat, app_assoc|]. split; [exact Hne|].
      eapply Forall_impl; [|exact Hsz]. cbn beta.
      intros a [Ha|Ha]; [now left | right; now right].
    + destruct (IH [] (flush buffer sent ++ [w])) as (out & E & Hcat & Hne & Hsz).
      { change (len []) with 0. unfold buffer_cap. lia. }
      destruct (@flush_spec buffer Hb) as (F1 & F2 & F3).
      exists (flush buffer [] ++ [w] ++ out).
      rewrite E, (flush_app buffer sent), <- !app_assoc.
      split; [reflexivity|]. cbn [concat].
      rewrite !concat_app, F1, Hcat. cbn [concat app].
      rewrite app_nil_r. split; [reflexivity|].
      split.
      * apply Forall_app. split; [exact F2|]. constructor; [|exact Hne].
        intros ->. apply chunk_rep_pos in Hc. change (len []) with 0 in Hc.
        lia.
      * apply Forall_app. split.
        -- eapply Forall_impl; [|exact F3]. cbn beta. intros; now left.
        -- constructor; [right; now left|].
           eapply Forall_impl; [|exact Hsz]. cbn beta.
           intros a [Ha|Ha]; [now left | right; now right].
Qed.

Lemma chain_rep_In cs ws w :
  Forall2 (@chunk_rep T) cs ws -> In w ws ->
  exists c, In c cs /\ valid_window c = Some w.
Proof.
  induction 1 as [|c w' cs ws Hc _ IH]; intros Hin; [contradiction|].
  destruct Hin as [->|Hin].
  - exists c. split; [now left | apply Hc].
  - destruct (IH Hin) as (c' & Hc' & Hw). exists c'. split; [now right|exact Hw].
Qed.

(** X16.  In a reachable state the slices [RangeChunk] sends, put end to
    end in the order they are sent, are the logical sequence.  None of
    them is empty, and each has at most 1024 elements or is the whole
    valid window of one chunk. *)
Theorem RangeChunk_sends_the_logical_sequence cl l :
  reachable zero cl -> Range cl = Some l ->
  exists batches,
    RangeChunk cl = Some batches /\
    concat batches = l /\
    Forall (fun x => x <> []) batches /\
    Forall (fun x => len x <= 1024 \/
                     exists c, In c (chain cl) /\ valid_window c = Some x)
           batches.
Proof.
  intros Hr Hl. destruct (reachable_Rep Hr) as (ws & HR).
  rewrite (Rep_Range HR Hl). destruct HR as (Hch & _).
  destruct (@chunk_loop_spec (chain cl) ws Hch [] [])
    as (out & E & Hcat & Hne & Hsz).
  { change (len []) with 0. unfold buffer_cap. lia. }
  exists out. split; [exact E|]. split; [exact Hcat|]. split; [exact Hne|].
  eapply Forall_impl; [|exact Hsz]. cbn beta.
  intros a [Ha|Ha]; [now left | right; eapply chain_rep_In; eauto].
Qed.

(** ** insertBlockToTree *)

Lemma insertBlockToTree_root c cl :
  root (insertBlockToTree (Some c) cl) =
  insert_loop (Node (size c) (size c - offset c) c Nil Nil)
              (size c) (size c - offset c) (root cl).
Proof.
  unfold insertBlockToTree. cbn [root]. now destruct (root cl).
Qed.

Lemma insert_loop_totals c (t : TreeNode T) :
  let t' := insert_loop (Node (size c) (size c - offset c) c Nil Nil)
                        (size c) (size c - offset c) t in
  tree_ok t ->
  tree_ok t' /\
  tree_sum t' = tree_sum t + size c /\
  tree_valid t' = tree_valid t + (size c - offset c).
Proof.
  induction t as [|s v a l IHl r IHr]; cbn zeta.
  - intros _. cbn [insert_loop tree_ok tree_sum tree_valid].
    repeat split; lia.
  - intros (Hs & Hv & Hl & Hr). cbn [insert_loop].
    destruct l as [|ls lv la ll lr].
    + cbn [tree_ok tree_sum tree_valid] in *. repeat split; try lia; tauto.
    + destruct r as [|rs rv ra rl rr].
      * cbn [tree_ok tree_sum tree_valid] in *. repeat split; try lia; tauto.
      * destruct (ls <=? rs).
        -- destruct (IHl Hl) as (Hl' & Hls & Hlv).
           cbn [tree_ok tree_sum tree_valid].
           rewrite Hls, Hlv. cbn [tree_sum tree_valid] in *.
           repeat split; try lia; try assumption; apply Hr.
        -- destruct (IHr Hr) as (Hr' & Hrs & Hrv).
           cbn [tree_ok tree_sum tree_valid].
           rewrite Hrs, Hrv. cbn [tree_sum tree_valid] in *.
           repeat split; try lia; try assumption; apply Hl.
Qed.

Lemma insert_loop_Node (N : TreeNode T) bs bv s v a (lt rt : TreeNode T) :
  insert_loop N bs bv (Node s v a lt rt) =
  match lt with
  | Nil => Node (s + bs) (v + bv) a N rt
  | Node ls _ _ _ _ =>
      match rt with
      | Nil => Node (s + bs) (v + bv) a lt N
      | Node rs _ _ _ _ =>
          if ls <=? rs
          then Node (s + bs) (v + bv) a (insert_loop N bs bv lt) rt
          else Node (s + bs) (v + bv) a lt (insert_loop N bs bv rt)
      end
  end.
Proof. now destruct lt, rt. Qed.

Lemma insert_loop_blocks c (t : TreeNode T) :
  Permutation
    (tree_blocks (insert_loop (Node (size c) (size c - offset c) c Nil Nil)
                              (size c) (size c - offset c) t))
    (c :: tree_blocks t).
Proof.
  induction t as [|s v a l IHl r IHr]; [reflexivity|].
  rewrite insert_loop_Node.
  destruct l as [|ls lv la ll lr].
  - cbn [tree_blocks app]. apply perm_swap.
  - remember (Node ls lv la ll lr) as L eqn:EL.
    destruct r as [|rs rv ra rl rr].
    + cbn [tree_blocks app]. rewrite app_nil_r. symmetry.
      apply (Permutation_cons_append (a :: tree_blocks L) c).
    + remember (Node rs rv ra rl rr) as R eqn:ER.
      destruct (ls <=? rs); cbn [tree_blocks].
      * rewrite IHl. cbn [app]. apply perm_swap.
      * rewrite IHr. rewrite <- Permutation_middle. apply perm_swap.
Qed.

Lemma insertBlockToTree_spec c cl :
  tree_ok (root cl) ->
  tree_ok (root (insertBlockToTree (Some c) cl)) /\
  tree_sum (root (insertBlockToTree (Some c) cl)) =
    tree_sum (root cl) + size c /\
  tree_valid (root (insertBlockToTree (Some c) cl)) =
    tree_valid (root cl) + (size c - offset c) /\
  Permutation (tree_blocks (root (insertBlockToTree (Some c) cl)))
              (c :: tree_blocks (root cl)).
Proof.
  intros Hok. rewrite insertBlockToTree_root.
  destruct (insert_loop_totals c _ Hok) as (H1 & H2 & H3).
  split; [exact H1|]. split; [exact H2|]. split; [exact H3|].
  apply insert_loop_blocks.
Qed.

(** X17.  [insertBlockToTree] on a chunk keeps the tree consistent: if
    every node recorded the totals of its subtree before, every node does
    after; the root's [sum] grows by the chunk's [size] and its
    [validSize] by [size - offset]; the tree refers to the chunks it
    referred to and to the new one; the chain and the counters of the
    buffer are not touched. *)
Theorem insertBlockToTree_keeps_subtree_totals c cl :
  tree_ok (root cl) ->
  let cl' := insertBlockToTree (Some c) cl in
  tree_ok (root cl') /\
  tree_sum (root cl') = tree_sum (root cl) + size c /\
  tree_valid (root cl') = tree_valid (root cl) + (size c - offset c) /\
  nodes (root cl') = S (nodes (root cl)) /\
  Permutation (tree_blocks (root cl')) (c :: tree_blocks (root cl)) /\
  chain cl' = chain cl /\ totalSize cl' = totalSize cl /\
  validSize cl' = validSize cl.
Proof.
  intros Hok cl'. destruct (insertBlockToTree_spec c cl Hok)
    as (H1 & H2 & H3 & H4).
  split; [exact H1|]. split; [exact H2|]. split; [exact H3|].
  split; [apply insertBlockToTree_nodes|]. split; [exact H4|].
  now repeat split.
Qed.

(** X18.  After [insertBlockToTree] has been called on the chunks
    [b1, ..., bn] in turn, from an empty tree, the tree has [n] nodes that
    refer to exactly those chunks, every node records the totals of its
    subtree, and the root records the sum of [size] and the sum of
    [size - offset] over all of them. *)
Theorem index_tree_records_all_inserted_blocks (bs : list (Chunk T)) :
  let cl := insert_all bs NewChunkPipe in
  tree_ok (root cl) /\
  tree_sum (root cl) = sum_size bs /\
  tree_valid (root cl) = sum_valid bs /\
  nodes (root cl) = length bs /\
  Permutation (tree_blocks (root cl)) bs.
Proof.
  cbn zeta. unfold insert_all.
  assert (G : forall (acc : ChunkPipe T) bs0,
    tree_ok (root acc) ->
    let cl := fold_left (fun a k => insertBlockToTree (Some k) a) bs0 acc in
    tree_ok (root cl) /\
    tree_sum (root cl) = tree_sum (root acc) + sum_size bs0 /\
    tree_valid (root cl) = tree_valid (root acc) + sum_valid bs0 /\
    nodes (root cl) = (nodes (root acc) + length bs0)%nat /\
    Permutation (tree_blocks (root cl)) (tree_blocks (root acc) ++ bs0)).
  { intros acc bs0. revert acc.
    induction bs0 as [|b bs0 IH]; intros acc Hok; cbn zeta; cbn [fold_left].
    - unfold sum_size, sum_valid. cbn [fold_right length].
      rewrite app_nil_r, Nat.add_0_r. repeat split; try lia; auto.
    - destruct (insertBlockToTree_spec b acc Hok) as (H1 & H2 & H3 & H4).
      destruct (IH _ H1) as (I1 & I2 & I3 & I4 & I5).
      split; [exact I1|].
      rewrite I2, I3, I4, H2, H3, insertBlockToTree_nodes.
      rewrite sum_size_cons.
      assert (Hsv : sum_valid (b :: bs0) = (size b - offset b) + sum_valid bs0)
        by reflexivity.
      rewrite Hsv. cbn [length].
      split; [lia|]. split; [lia|]. split; [lia|].
      rewrite I5, H4. cbn [app]. apply Permutation_middle. }
  destruct (G NewChunkPipe bs I) as (G1 & G2 & G3 & G4 & G5).
  cbn [root NewChunkPipe tree_sum tree_valid nodes tree_blocks app] in *.
  repeat split; try assumption; lia.
Qed.

(** ** When a single pop unlinks a chunk *)

(** X20.  In a reachable state with head chunk [c], [PopFront] returns the
    element at cell [offset] of [c] and moves [offset] up by one; it
    unlinks [c] exactly when that was its last valid element, and
    otherwise leaves the chain as it is, whether or not more than 8
    elements remain in [c]. *)
Theorem PopFront_unlinks_only_an_emptied_head cl c rest :
  reachable zero cl -> chain cl = c :: rest ->
  exists v,
    load (data c) (offset c) = Some v /\
    PopFront zero cl =
    Some ({| chain :=
               (if offset c + 1 <? size c
                then [ {| data := data c; size := size c;
                          offset := offset c + 1 |} ]
                else []) ++ rest;
             totalSize := totalSize cl - 1;
             validSize := validSize cl - 1;
             root := root cl |}, (v, true)).
Proof.
  intros Hr Hc. destruct (reachable_Rep Hr) as (ws & HR).
  pose proof HR as (Hch & _). rewrite Hc in Hch.
  inversion Hch as [|? w ? ws' Hw Hws]; subst.
  destruct w as [|v w].
  { apply chunk_rep_pos in Hw. change (len []) with 0 in Hw. lia. }
  destruct (chunk_rep_front Hw) as (Hload & _ & _).
  pose proof Hw as (H0 & H1 & _).
  exists v. split; [exact Hload|].
  unfold PopFront. rewrite Hc.
  rewrite (Rep_nonempty HR) by discriminate.
  destruct (Z.leb_spec (size c) (offset c)); [lia|].
  rewrite Hload. cbn [offset size].
  destruct (Z.ltb_spec (offset c + 1) (size c - 8));
    destruct (Z.ltb_spec (offset c + 1) (size c));
    destruct (Z.leb_spec (size c) (offset c + 1)); try lia; reflexivity.
Qed.

(** X21.  In a reachable state with tail chunk [t], [PopEnd] returns the
    element at cell [size - 1] of [t] and moves [size] down by one; it
    unlinks [t] exactly when that was its last valid element. *)
Theorem PopEnd_unlinks_only_an_emptied_tail cl before t :
  reachable zero cl -> chain cl = before ++ [t] ->
  exists v,
    load (data t) (size t - 1) = Some v /\
    PopEnd zero cl =
    Some ({| chain :=
               before ++
               (if offset t <? size t - 1
                then [ {| data := data t; size := size t - 1;
                          offset := offset t |} ]
                else []);
             totalSize := totalSize cl - 1;
             validSize := validSize cl - 1;
             root := root cl |}, (v, true)).
Proof.
  intros Hr Hc. destruct (reachable_Rep Hr) as (ws & HR).
  pose proof HR as (Hch & _). rewrite Hc in Hch.
  apply chain_rep_last in Hch. destruct Hch as (ws' & w & Ews & Hws & Hw).
  destruct (@exists_last _ w) as (w' & v & ->).
  { intros ->. apply chunk_rep_pos in Hw. change (len []) with 0 in Hw.
    lia. }
  destruct (chunk_rep_back _ _ Hw) as (Hload & _ & _).
  pose proof Hw as (H0 & H1 & _).
  exists v. split; [exact Hload|].
  unfold PopEnd. rewrite Hc, unsnoc_app.
  rewrite (Rep_nonempty HR) by (rewrite Ews; destruct ws'; discriminate).
  rewrite Hload. cbn [offset size].
  destruct (Z.leb_spec (size t - 1) (offset t));
    destruct (Z.ltb_spec (offset t) (size t - 1)); try lia.
  - unfold set_chain. cbn. now rewrite app_nil_r.
  - reflexivity.
Qed.

End Further.

(** * The further properties on the sample runs *)

Lemma bulk_Push_appends_to_Range_witness :
  reachable 0 sample /\ Range sample = Some sample_elements /\
  8 < len nine_more /\
  exists cl',
    Push nine_more sample = Some cl' /\
    chain cl' = chain sample ++ [new_block nine_more] /\
    Range cl' = Some (sample_elements ++ nine_more) /\
    validSize cl' = validSize sample + len nine_more.
Proof.
  assert (Hr : reachable 0 sample) by apply state_after_reachable.
  assert (Hd : 8 < len nine_more) by reflexivity.
  split; [exact Hr|]. split; [reflexivity|]. split; [exact Hd|].
  exact (@bulk_Push_appends_to_Range Z 0 sample nine_more sample_elements
           Hr eq_refl Hd).
Defined.

Lemma PopFront_takes_the_first_element_witness :
  reachable 0 sample /\ Range sample = Some (2 :: tl sample_elements) /\
  exists cl',
    PopFront 0 sample = Some (cl', (2, true)) /\
    Range cl' = Some (tl sample_elements) /\
    validSize cl' = validSize sample - 1.
Proof.
  assert (Hr : reachable 0 sample) by apply state_after_reachable.
  split; [exact Hr|]. split; [reflexivity|].
  exact (@PopFront_takes_the_first_element Z 0 sample 2 (tl sample_elements)
           Hr eq_refl).
Defined.

Lemma PopEnd_takes_the_last_element_witness :
  reachable 0 sample /\
  Range sample = Some (removelast sample_elements ++ [26]) /\
  exists cl',
    PopEnd 0 sample = Some (cl', (26, true)) /\
    Range cl' = Some (removelast sample_elements) /\
    validSize cl' = validSize sample - 1.
Proof.
  assert (Hr : reachable 0 sample) by apply state_after_reachable.
  split; [exact Hr|]. split; [reflexivity|].
  exact (@PopEnd_takes_the_last_element Z 0 sample 26
           (removelast sample_elements) Hr eq_refl).
Defined.

Lemma PopChunkFront_takes_the_head_window_witness :
  reachable 0 pushed_once /\
  chain pushed_once = new_block [1; 2; 3] :: [] /\
  exists cl' w l',
    PopChunkFront 0 pushed_once = Some (cl', (w, true)) /\
    valid_window (new_block [1; 2; 3]) = Some w /\ w <> [] /\
    chain cl' = [] /\
    Range pushed_once = Some (w ++ l') /\ Range cl' = Some l' /\
    validSize cl' = validSize pushed_once - len w.
Proof.
  assert (Hr : reachable 0 pushed_once) by apply state_after_reachable.
  split; [exact Hr|]. split; [reflexivity|].
  exact (@PopChunkFront_takes_the_head_window Z 0 pushed_once
           (new_block [1; 2; 3]) [] Hr eq_refl).
Defined.

Lemma PopChunkEnd_takes_the_tail_window_witness :
  reachable 0 pushed_once /\
  chain pushed_once = [] ++ [new_block [1; 2; 3]] /\
  exists cl' w l',
    PopChunkEnd 0 pushed_once = Some (cl', (w, true)) /\
    valid_window (new_block [1; 2; 3]) = Some w /\ w <> [] /\
    chain cl' = [] /\
    Range pushed_once = Some (l' ++ w) /\ Range cl' = Some l' /\
    validSize cl' = validSize pushed_once - len w.
Proof.
  assert (Hr : reachable 0 pushed_once) by apply state_after_reachable.
  split; [exact Hr|]. split; [reflexivity|].
  exact (@PopChunkEnd_takes_the_tail_window Z 0 pushed_once []
           (new_block [1; 2; 3]) Hr eq_refl).
Defined.

Lemma bulk_pushes_come_back_chunk_by_chunk_witness :
  Forall (fun d => 8 < len d) bulk_pushes /\
  (exists cl,
     run 0 (map (@OpPush Z) bulk_pushes ++
            repeat OpPopChunkFront (length bulk_pushes)) NewChunkPipe =
     Some (cl, repeat RPush (length bulk_pushes) ++
               map (fun d => RChunk d true) bulk_pushes) /\
     chain cl = [] /\ validSize cl = 0) /\
  (exists cl,
     run 0 (map (@OpPush Z) bulk_pushes ++
            repeat OpPopChunkEnd (length bulk_pushes)) NewChunkPipe =
     Some (cl, repeat RPush (length bulk_pushes) ++
               map (fun d => RChunk d true) (rev bulk_pushes)) /\
     chain cl = [] /\ validSize cl = 0).
Proof.
  assert (H : Forall (fun d : list Z => 8 < len d) bulk_pushes)
    by (repeat constructor).
  split; [exact H|].
  exact (@bulk_pushes_come_back_chunk_by_chunk Z 0 bulk_pushes H).
Defined.


Lemma Get_finds_exactly_the_valid_indices_witness :
  reachable 0 sample /\
  ((exists v, Get 0 3 sample = Some (v, true)) <->
   0 <= 3 < validSize sample) /\
  (~ 0 <= 3 < validSize sample -> Get 0 3 sample = Some (0, false)).
Proof.
  assert (Hr : reachable 0 sample) by apply state_after_reachable.
  split; [exact Hr|].
  exact (@Get_finds_exactly_the_valid_indices Z 0 sample 3 Hr).
Defined.

Lemma Get_after_bulk_Push_witness :
  reachable 0 sample /\ 8 < len nine_more /\
  Push nine_more sample = Some bulk_pushed /\
  (forall i, 0 <= i < validSize sample ->
             Get 0 i bulk_pushed = Get 0 i sample) /\
  (forall j, 0 <= j < len nine_more ->
     exists v, nth_error nine_more (Z.to_nat j) = Some v /\
               Get 0 (validSize sample + j) bulk_pushed = Some (v, true)).
Proof.
  assert (Hr : reachable 0 sample) by apply state_after_reachable.
  assert (Hd : 8 < len nine_more) by reflexivity.
  split; [exact Hr|]. split; [exact Hd|]. split; [reflexivity|].
  exact (@Get_after_bulk_Push Z 0 sample nine_more bulk_pushed
           Hr Hd eq_refl).
Defined.

Lemma Get_after_PopFront_witness :
  reachable 0 two_elements /\
  PopFront 0 two_elements = Some (popped_once, (1, true)) /\
  Get 0 0 two_elements = Some (1, true) /\
  forall i, 0 <= i -> Get 0 i popped_once = Get 0 (i + 1) two_elements.
Proof.
  assert (Hr : reachable 0 two_elements) by apply state_after_reachable.
  split; [exact Hr|]. split; [reflexivity|].
  exact (@Get_after_PopFront Z 0 two_elements popped_once 1 Hr eq_refl).
Defined.

Lemma Get_after_PopEnd_witness :
  reachable 0 two_elements /\
  PopEnd 0 two_elements = Some (popped_end_once, (2, true)) /\
  Get 0 (validSize two_elements - 1) two_elements = Some (2, true) /\
  forall i, 0 <= i < validSize two_elements - 1 ->
            Get 0 i popped_end_once = Get 0 i two_elements.
Proof.
  assert (Hr : reachable 0 two_elements) by apply state_after_reachable.
  split; [exact Hr|]. split; [reflexivity|].
  exact (@Get_after_PopEnd Z 0 two_elements popped_end_once 2 Hr eq_refl).
Defined.

Lemma drained_buffer_has_no_chunk_witness :
  reachable 0 sample /\
  (validSize sample = 0 <-> chain sample = []) /\
  (chain sample = [] -> totalSize sample = 0 /\ Range sample = Some []).
Proof.
  assert (Hr : reachable 0 sample) by apply state_after_reachable.
  split; [exact Hr|]. exact (@drained_buffer_has_no_chunk Z 0 sample Hr).
Defined.

Lemma Range_returns_validSize_elements_witness :
  reachable 0 sample /\
  exists l, Range sample = Some l /\ len l = validSize sample.
Proof.
  assert (Hr : reachable 0 sample) by apply state_after_reachable.
  split; [exact Hr|].
  exact (@Range_returns_validSize_elements Z 0 sample Hr).
Defined.

Lemma RangeValues_is_a_scan_from_the_left_witness :
  reachable 0 sample /\ Range sample = Some sample_elements /\
  RangeValues (at_most 22) sample =
    Some (visited (at_most 22) [] sample_elements) /\
  (passes (at_most 22) [] sample_elements = true ->
   RangeValues (at_most 22) sample = Some sample_elements).
Proof.
  assert (Hr : reachable 0 sample) by apply state_after_reachable.
  split; [exact Hr|]. split; [reflexivity|].
  exact (@RangeValues_is_a_scan_from_the_left Z 0 (at_most 22) sample
           sample_elements Hr eq_refl).
Defined.

Lemma bulk_Push_then_PopEnd_restores_witness :
  reachable 0 sample /\ Range sample = Some sample_elements /\
  8 < len nine_more /\
  exists cl',
    run 0 (OpPush nine_more :: repeat OpPopEnd (length nine_more)) sample =
      Some (cl', RPush :: map (fun v => RValue v true) (rev nine_more)) /\
    Range cl' = Some sample_elements /\
    validSize cl' = validSize sample.
Proof.
  assert (Hr : reachable 0 sample) by apply state_after_reachable.
  assert (Hd : 8 < len nine_more) by reflexivity.
  split; [exact Hr|]. split; [reflexivity|]. split; [exact Hd|].
  exact (@bulk_Push_then_PopEnd_restores Z 0 sample nine_more sample_elements
           Hr eq_refl Hd).
Defined.

Lemma bulk_pushes_are_FIFO_and_LIFO_witness :
  Forall (fun d => 8 < len d) bulk_pushes /\
  (exists cl,
     run 0 (map (@OpPush Z) bulk_pushes ++ repeat OpPopFront 20)
         NewChunkPipe =
     Some (cl, repeat RPush (length bulk_pushes) ++
               map (fun v => RValue v true)
                   (firstn 20 (concat bulk_pushes)) ++
               repeat (RValue 0 false)
                      (20 - length (concat bulk_pushes)))) /\
  (exists cl,
     run 0 (map (@OpPush Z) bulk_pushes ++ repeat OpPopEnd 20)
         NewChunkPipe =
     Some (cl, repeat RPush (length bulk_pushes) ++
               map (fun v => RValue v true)
                   (firstn 20 (rev (concat bulk_pushes))) ++
               repeat (RValue 0 false)
                      (20 - length (concat bulk_pushes)))).
Proof.
  assert (H : Forall (fun d : list Z => 8 < len d) bulk_pushes)
    by (repeat constructor).
  split; [exact H|].
  exact (@bulk_pushes_are_FIFO_and_LIFO Z 0 bulk_pushes 20 H).
Defined.

Lemma RangeChunk_sends_the_logical_sequence_witness :
  reachable 0 sample /\ Range sample = Some sample_elements /\
  exists batches,
    RangeChunk sample = Some batches /\
    concat batches = sample_elements /\
    Forall (fun x => x <> []) batches /\
    Forall (fun x => len x <= 1024 \/
                     exists c, In c (chain sample) /\
                               valid_window c = Some x)
           batches.
Proof.
  assert (Hr : reachable 0 sample) by apply state_after_reachable.
  split; [exact Hr|]. split; [reflexivity|].
  exact (@RangeChunk_sends_the_logical_sequence Z 0 sample sample_elements
           Hr eq_refl).
Defined.

Lemma insertBlockToTree_keeps_subtree_totals_witness :
  tree_ok (root (@NewChunkPipe Z)) /\
  let c := new_block [1; 2; 3] in
  let cl' := insertBlockToTree (Some c) NewChunkPipe in
  tree_ok (root cl') /\
  tree_sum (root cl') = tree_sum (root (@NewChunkPipe Z)) + size c /\
  tree_valid (root cl') =
    tree_valid (root (@NewChunkPipe Z)) + (size c - offset c) /\
  nodes (root cl') = S (nodes (root (@NewChunkPipe Z))) /\
  Permutation (tree_blocks (root cl'))
              (c :: tree_blocks (root (@NewChunkPipe Z))) /\
  chain cl' = chain (@NewChunkPipe Z) /\
  totalSize cl' = totalSize (@NewChunkPipe Z) /\
  validSize cl' = validSize (@NewChunkPipe Z).
Proof.
  split; [exact I|].
  exact (@insertBlockToTree_keeps_subtree_totals Z (new_block [1; 2; 3])
           NewChunkPipe I).
Defined.

Lemma stored_integers_are_counts_witness :
  run 0 sample_ops NewChunkPipe =
    Some (sample, [RPush; RPush; RPush; RValue 1 true]) /\
  0 <= validSize sample <= pushed sample_ops /\
  totalSize sample = validSize sample /\
  Forall (fun c => 0 <= offset c < size c /\ size c <= pushed sample_ops)
         (chain sample).
Proof.
  split; [reflexivity|].
  exact (@stored_integers_are_counts Z 0 sample_ops sample
           [RPush; RPush; RPush; RValue 1 true] eq_refl).
Defined.

Lemma PopFront_unlinks_only_an_emptied_head_witness :
  reachable 0 pushed_once /\
  chain pushed_once = new_block [1; 2; 3] :: [] /\
  exists v,
    load (data (new_block [1; 2; 3])) (offset (new_block [1; 2; 3])) =
      Some v /\
    PopFront 0 pushed_once =
    Some ({| chain :=
               (if offset (new_block [1; 2; 3]) + 1 <?
                   size (new_block [1; 2; 3])
                then [ {| data := data (new_block [1; 2; 3]);
                          size := size (new_block [1; 2; 3]);
                          offset := offset (new_block [1; 2; 3]) + 1 |} ]
                else []) ++ [];
             totalSize := totalSize pushed_once - 1;
             validSize := validSize pushed_once - 1;
             root := root pushed_once |}, (v, true)).
Proof.
  assert (Hr : reachable 0 pushed_once) by apply state_after_reachable.
  split; [exact Hr|]. split; [reflexivity|].
  exact (@PopFront_unlinks_only_an_emptied_head Z 0 pushed_once
           (new_block [1; 2; 3]) [] Hr eq_refl).
Defined.

Lemma PopEnd_unlinks_only_an_emptied_tail_witness :
  reachable 0 pushed_once /\
  chain pushed_once = [] ++ [new_block [1; 2; 3]] /\
  exists v,
    load (data (new_block [1; 2; 3])) (size (new_block [1; 2; 3]) - 1) =
      Some v /\
    PopEnd 0 pushed_once =
    Some ({| chain :=
               [] ++
               (if offset (new_block [1; 2; 3]) <?
                   size (new_block [1; 2; 3]) - 1
                then [ {| data := data (new_block [1; 2; 3]);
                          size := size (new_block [1; 2; 3]) - 1;
                          offset := offset (new_block [1; 2; 3]) |} ]
                else []);
             totalSize := totalSize pushed_once - 1;
             validSize := validSize pushed_once - 1;
             root := root pushed_once |}, (v, true)).
Proof.
  assert (Hr : reachable 0 pushed_once) by apply state_after_reachable.
  split; [exact Hr|]. split; [reflexivity|].
  exact (@PopEnd_unlinks_only_an_emptied_tail Z 0 pushed_once []
           (new_block [1; 2; 3]) Hr eq_refl).
Defined.
